(** * RunWhile: a saga guarded by invariants (src/effects/RunWhile.ts)

    The development has two layers, as the source has:

    - the builder ([runWhile], [saga], [invariant], [onViolation], [run]),
      whose definition objects and arrays live in an object store, so that
      "returns a new stage and leaves the previous one alone" is a statement
      about the store and not a by-product of the modelling language;
    - the generator [runInternal], embedded as a resumption: a tree whose
      nodes are the effects it yields and whose branches are the ways the
      middleware can resume it ([next], [throw], [return]).  The array of
      violations it creates lives in a store of arrays that the middleware,
      which runs the callbacks, can read and write. *)

From stdpp Require Import gmap strings list fin_maps.
From Stdlib Require Import Ascii String.

Local Open Scope string_scope.

(** ** JavaScript values the code relies on *)

(** What [k in o] can see of an object: the names of its own properties and
    the names reachable along its prototype chain. *)
Record JSObject := {
  ownKeys : gset string;
  protoKeys : gset string
}.

(** [key in o] *)
Definition hasProperty (key : string) (o : JSObject) : bool :=
  bool_decide (key ∈ ownKeys o) || bool_decide (key ∈ protoKeys o).

(** The property names of [Object.prototype] (ECMAScript, with Annex B). *)
Definition ObjectPrototype : gset string :=
  list_to_set
    [ "constructor"; "hasOwnProperty"; "isPrototypeOf"; "propertyIsEnumerable";
      "toLocaleString"; "toString"; "valueOf"; "__proto__";
      "__defineGetter__"; "__defineSetter__";
      "__lookupGetter__"; "__lookupSetter__" ].

(** An object written as a literal, [{ k1: .., k2: .. }], or created as [{}]
    and then filled in. *)
Definition objectLiteral (keys : gset string) : JSObject :=
  {| ownKeys := keys; protoKeys := ObjectPrototype |}.

(** [Object.create(null)] with the given keys set. *)
Definition nullProtoObject (keys : gset string) : JSObject :=
  {| ownKeys := keys; protoKeys := ∅ |}.

(** [new Error(message)] *)
Record Error := { message : string }.

(** Locations of the object store. *)
Abbreviation loc := positive.

(** How a suspended generator is resumed: [it.next(v)], [it.throw(e)] or
    [it.return()] (cancellation). *)
Inductive Resume (R : Type) :=
  | Next (v : R)
  | Throw (e : Error)
  | Cancel.
Arguments Next {R} v.
Arguments Throw {R} e.
Arguments Cancel {R}.

(** A call either returns or throws. *)
Inductive Completion (A : Type) :=
  | Return (v : A)
  | Throws (e : Error).
Arguments Return {A} v.
Arguments Throws {A} e.

Global Instance Error_eq_dec : EqDecision Error.
Proof. solve_decision. Defined.

Global Instance Completion_eq_dec {A} `{EqDecision A} : EqDecision (Completion A).
Proof. solve_decision. Defined.

(** What a call or a generator returns, as far as the runs here look at it:
    [undefined], a number or a string. *)
Inductive Value :=
  | undefined
  | number (n : Z)
  | text (s : string).

(** The arrays of tags a run creates, by reference: what is passed around is
    the location, what a callee reads or writes is the contents. *)
Abbreviation arrays := (gmap loc (list string)).

(** How a generator ends. *)
Inductive Outcome :=
  | Completed (result : Value)
  | Failed (e : Error)
  | Cancelled.

(** How a generator whose body goes on to its end without a [return]
    statement ends after its last [yield] was answered. *)
Definition endsAs {R} (r : Resume R) : Outcome :=
  match r with
  | Next _ => Completed undefined
  | Throw e => Failed e
  | Cancel => Cancelled
  end.

Section RunWhile.

(** [S] is the redux state as [select] returns it, which the code passes on
    and applies the clauses to; [Saga] and [Callback] are the generator
    functions the caller hands in, opaque to this module. *)
Context {S Saga Callback : Type}.

(** ** Types of the source *)

(** A clause is caller's code: it returns a boolean, or throws. *)
Record Invariant := {
  tag : string;
  clause : S → Completion bool
}.

(** [saga: function* nothing() { yield 0; }] is the placeholder of the empty
    definition. *)
Inductive SagaFn :=
  | nothing
  | userSaga (f : Saga).

Record RunWhileDefinition := {
  def_invariants : list Invariant;
  def_onViolationCallbacks : list Callback;
  def_saga : SagaFn
}.

Definition sagaRaceTag : string := "@@Saga".

(** The four call sites of redux-saga's [call]. *)
Inductive CallEffect :=
  | CallSaga (fn : SagaFn)
      (* call(this.saga) *)
  | CallObserveWhile (cl : S → Completion bool)
      (* call(observeWhile, invariant.clause) *)
  | CallCallback (callback : Callback) (currentState : S) (violations : loc)
      (* call(callback, currentState, violations): the array goes by reference *)
  | CallRunInternal (this : loc).
      (* call(runInternal.bind(this)) *)

(** The effects [runInternal] yields, indexed by what the middleware
    answers. *)
Inductive Effect : Type → Type :=
  | Race (raceDefinition : gmap string CallEffect) : Effect JSObject
  | Select : Effect S
      (* select(state => state) *)
  | Call (c : CallEffect) : Effect Value.

(** A generator object, seen from the middleware: it has returned, thrown or
    been cancelled, or it is suspended at a [yield]; [NewArray] is an array
    it creates on its way to the next [yield]. *)
Inductive Gen :=
  | Done (result : Value)
  | Raised (e : Error)
  | Returned
  | Yield {R : Type} (eff : Effect R) (k : Resume R → Gen)
  | NewArray (elements : list string) (k : loc → Gen).

(** [const x = yield eff; rest] in a generator body without try/catch or
    finally: a thrown error escapes, a cancellation ends the generator. *)
Definition yield {R} (eff : Effect R) (rest : R → Gen) : Gen :=
  Yield eff (fun r =>
    match r with
    | Next v => rest v
    | Throw e => Raised e
    | Cancel => Returned
    end).

Notation "x <~ e ;; rest" := (yield e (fun x => rest))
  (at level 100, e at next level, right associativity, only parsing).

(** ** runInternal *)

(** [this.invariants.forEach(invariant => { raceDefinition =
    { ...raceDefinition, [invariant.tag]: call(observeWhile, invariant.clause) } })]
    starting from [{ [sagaRaceTag]: call(this.saga) }]. *)
Definition raceDefinitionOf (this : RunWhileDefinition) : gmap string CallEffect :=
  foldl (fun raceDefinition invariant =>
           <[tag invariant := CallObserveWhile (clause invariant)]> raceDefinition)
        {[ sagaRaceTag := CallSaga (def_saga this) ]}
        (def_invariants this).

(** [this.invariants.filter(invariant => !invariant.clause(currentState))]:
    the clauses are called in the order of the array; the first one that
    throws ends the filtering with its error. *)
Fixpoint filterBroken (invariants : list Invariant) (currentState : S)
    : Completion (list Invariant) :=
  match invariants with
  | [] => Return []
  | invariant :: rest =>
      match clause invariant currentState with
      | Throws e => Throws e
      | Return holds =>
          match filterBroken rest currentState with
          | Throws e => Throws e
          | Return broken => Return (if negb holds then invariant :: broken else broken)
          end
      end
  end.

(** [this.invariants.filter(invariant => !invariant.clause(currentState))
        .map(invariant => invariant.tag)]: the elements of the array
    [violations], when no clause throws. *)
Definition violationsOf (this : RunWhileDefinition) (currentState : S)
    : Completion (list string) :=
  match filterBroken (def_invariants this) currentState with
  | Throws e => Throws e
  | Return broken => Return (List.map tag broken)
  end.

(** [for (const callback of this.onViolationCallbacks)
       { yield call(callback, currentState, violations); }]
    and the end of the generator's body.  Every call is handed the same
    state and the same array; the loop itself reads and writes neither. *)
Fixpoint forEachCallback (callbacks : list Callback)
    (currentState : S) (violations : loc) : Gen :=
  match callbacks with
  | [] => Done undefined
  | callback :: rest =>
      _ <~ Call (CallCallback callback currentState violations) ;;
      forEachCallback rest currentState violations
  end.

(** The array that [filter] creates is dropped at once; the one [map]
    creates is [violations]. *)
Definition runInternal (this : RunWhileDefinition) : Gen :=
  let raceDefinition := raceDefinitionOf this in
  raceResults <~ Race raceDefinition ;;
  if List.existsb (fun invariant => hasProperty (tag invariant) raceResults)
                  (def_invariants this)
  then
    currentState <~ Select ;;
    match violationsOf this currentState with
    | Throws e => Raised e
    | Return elements =>
        NewArray elements (fun violations =>
          forEachCallback (def_onViolationCallbacks this) currentState violations)
    end
  else Done undefined.

(** ** The object store of the builder *)

(** A definition object holds references to its two arrays; the invariant
    records [{ tag, clause }] and the functions are never written to and
    are kept as values. *)
Inductive Cell :=
  | DefinitionObject (invariants : loc) (onViolationCallbacks : loc) (saga : SagaFn)
  | InvariantArray (elements : list Invariant)
  | CallbackArray (elements : list Callback).

Abbreviation store := (gmap loc Cell).

(** An object or array literal: a new cell at an unused location. *)
Definition alloc (σ : store) (c : Cell) : loc * store :=
  let l := fresh (dom σ) in (l, <[l := c]> σ).

(** The configuration reachable from a definition object. *)
Definition load (σ : store) (this : loc) : option RunWhileDefinition :=
  match σ !! this with
  | Some (DefinitionObject il cl s) =>
      match σ !! il, σ !! cl with
      | Some (InvariantArray invariants), Some (CallbackArray callbacks) =>
          Some {| def_invariants := invariants;
                  def_onViolationCallbacks := callbacks;
                  def_saga := s |}
      | _, _ => None
      end
  | _ => None
  end.

(** The stage objects.  Each is a record of two methods (one for
    [RunWhileMonad]) bound to the same definition object; the type says
    which methods, [definition] is what they are bound to. *)
Inductive StageType :=
  | RunWhileMonad             (* { saga } *)
  | RunWhileSagaMonad         (* { run, invariant } *)
  | RunWhileInvariantMonad    (* { invariant, onViolation } *)
  | RunWhileOnViolationMonad. (* { onViolation, run } *)

Record Stage := {
  stageType : StageType;
  definition : loc
}.

(** [`${tag} is reserved. Please choose another invariant tag.`] *)
Definition reservedMessage (t : string) : string :=
  t ++ " is reserved. Please choose another invariant tag.".

(** [`${tag} is a`] *)
Definition duplicateMessage (t : string) : string :=
  t ++ " is a".

(** ** The builder

    Every method takes the store and its bound [this]; [None] stands for a
    receiver that is not a definition object, which [bind] rules out. *)

Definition runWhile (σ : store) : store * Stage :=
  let '(il, σ1) := alloc σ (InvariantArray []) in
  let '(cl, σ2) := alloc σ1 (CallbackArray []) in
  let '(definition, σ3) := alloc σ2 (DefinitionObject il cl nothing) in
  (σ3, {| stageType := RunWhileMonad; definition := definition |}).

Definition saga (σ : store) (this : loc) (s : Saga)
    : option (store * Completion Stage) :=
  match σ !! this with
  | Some (DefinitionObject il cl _) =>
      let '(definition, σ') := alloc σ (DefinitionObject il cl (userSaga s)) in
      Some (σ', Return {| stageType := RunWhileSagaMonad; definition := definition |})
  | _ => None
  end.

Definition invariant (σ : store) (this : loc) (t : string) (cl : S → Completion bool)
    : option (store * Completion Stage) :=
  if String.eqb t sagaRaceTag then
    Some (σ, Throws {| message := reservedMessage t |})
  else
    match σ !! this with
    | Some (DefinitionObject il cbl s) =>
        match σ !! il with
        | Some (InvariantArray invariants) =>
            if List.existsb (fun i => String.eqb (tag i) t) invariants then
              Some (σ, Throws {| message := duplicateMessage t |})
            else
              let '(il', σ1) :=
                alloc σ (InvariantArray (invariants ++ [{| tag := t; clause := cl |}])) in
              let '(definition, σ2) := alloc σ1 (DefinitionObject il' cbl s) in
              Some (σ2, Return {| stageType := RunWhileInvariantMonad;
                                  definition := definition |})
        | _ => None
        end
    | _ => None
    end.

Definition onViolation (σ : store) (this : loc) (callback : Callback)
    : option (store * Completion Stage) :=
  match σ !! this with
  | Some (DefinitionObject il cbl s) =>
      match σ !! cbl with
      | Some (CallbackArray callbacks) =>
          let '(cbl', σ1) := alloc σ (CallbackArray (callbacks ++ [callback])) in
          let '(definition, σ2) := alloc σ1 (DefinitionObject il cbl' s) in
          Some (σ2, Return {| stageType := RunWhileOnViolationMonad;
                              definition := definition |})
      | _ => None
      end
  | _ => None
  end.

Definition run (this : loc) : CallEffect := CallRunInternal this.

(** What the middleware runs for [call(runInternal.bind(this))].  The
    generator reads [this.saga], [this.invariants] and
    [this.onViolationCallbacks] as it goes; no method writes to a cell once
    allocated, so what it reads is the configuration loaded here. *)
Definition boundRunInternal (σ : store) (this : loc) : option Gen :=
  runInternal <$> load σ this.

(** The configurations the builder is meant to produce, written on the
    contents: [{ ...this, saga }], [{ ...this, invariants: [...this.invariants,
    { tag, clause }] }] and [{ ...this, onViolationCallbacks:
    [...this.onViolationCallbacks, callback] }]. *)
Definition withSaga (d : RunWhileDefinition) (s : Saga) : RunWhileDefinition :=
  {| def_invariants := def_invariants d;
     def_onViolationCallbacks := def_onViolationCallbacks d;
     def_saga := userSaga s |}.

Definition withInvariant (d : RunWhileDefinition) (t : string) (cl : S → Completion bool)
    : RunWhileDefinition :=
  {| def_invariants := def_invariants d ++ [{| tag := t; clause := cl |}];
     def_onViolationCallbacks := def_onViolationCallbacks d;
     def_saga := def_saga d |}.

Definition withCallback (d : RunWhileDefinition) (callback : Callback)
    : RunWhileDefinition :=
  {| def_invariants := def_invariants d;
     def_onViolationCallbacks := def_onViolationCallbacks d ++ [callback];
     def_saga := def_saga d |}.

Definition tagsOf (d : RunWhileDefinition) : list string :=
  tag <$> def_invariants d.

(** From one store to a later one, nothing that was there has changed:
    every cell is as it was, and so is every configuration. *)
Definition preserved (σ σ' : store) : Prop :=
  (∀ l c, σ !! l = Some c → σ' !! l = Some c) ∧
  (∀ this d, load σ this = Some d → load σ' this = Some d).

(** Method chaining, [stage.method(..)]: the next method is called on the
    stage the previous call returned; an error thrown ends the chain. *)
Definition chain (r : option (store * Completion Stage))
    (method : store → loc → option (store * Completion Stage))
    : option (store * Completion Stage) :=
  r ≫= λ '(σ, c),
    match c with
    | Return st => method σ (definition st)
    | Throws e => Some (σ, Throws e)
    end.

(** ** Calling a method of a stage *)

Inductive Method :=
  | call_saga (s : Saga)
  | call_invariant (t : string) (cl : S → Completion bool)
  | call_onViolation (callback : Callback)
  | call_run.

Inductive Result :=
  | AStage (st : Stage)
  | AnEffect (e : CallEffect).

Definition liftStage (r : option (store * Completion Stage))
    : option (store * Completion Result) :=
  r ≫= λ '(σ, c),
    Some (σ, match c with
             | Return st => Return (AStage st)
             | Throws e => Throws e
             end).

(** [None] also stands for a method the stage does not have. *)
Definition invoke (σ : store) (st : Stage) (m : Method)
    : option (store * Completion Result) :=
  let this := definition st in
  match stageType st, m with
  | RunWhileMonad, call_saga s => liftStage (saga σ this s)
  | RunWhileSagaMonad, call_run => Some (σ, Return (AnEffect (run this)))
  | RunWhileSagaMonad, call_invariant t cl => liftStage (invariant σ this t cl)
  | RunWhileInvariantMonad, call_invariant t cl => liftStage (invariant σ this t cl)
  | RunWhileInvariantMonad, call_onViolation cb => liftStage (onViolation σ this cb)
  | RunWhileOnViolationMonad, call_onViolation cb => liftStage (onViolation σ this cb)
  | RunWhileOnViolationMonad, call_run => Some (σ, Return (AnEffect (run this)))
  | _, _ => None
  end.

(** What a caller can tell from one method call: the error thrown, or the
    type and the configuration of the stage returned, or the effect
    returned together with the generator it stands for. *)
Inductive Observation :=
  | SeesStage (ty : StageType) (configuration : option RunWhileDefinition)
  | SeesEffect (generator : option Gen).

Definition observe (σ : store) (st : Stage) (m : Method)
    : option (Completion Observation) :=
  invoke σ st m ≫= λ '(σ', c),
    Some match c with
         | Return (AStage st') =>
             Return (SeesStage (stageType st') (load σ' (definition st')))
         | Return (AnEffect (CallRunInternal this)) =>
             Return (SeesEffect (boundRunInternal σ' this))
         | Return (AnEffect _) => Return (SeesEffect None)
         | Throws e => Throws e
         end.

(** The same, computed on the contents of the receiver alone: what the
    builder does when read as a function from configurations to
    configurations, with [addInvariant] for the two checks of [invariant]. *)
Definition addInvariant (d : RunWhileDefinition) (t : string) (cl : S → Completion bool)
    : Completion Observation :=
  if String.eqb t sagaRaceTag then
    Throws {| message := reservedMessage t |}
  else if List.existsb (λ i, String.eqb (tag i) t) (def_invariants d) then
    Throws {| message := duplicateMessage t |}
  else
    Return (SeesStage RunWhileInvariantMonad (Some (withInvariant d t cl))).

Definition expected (ty : StageType) (d : RunWhileDefinition) (m : Method)
    : option (Completion Observation) :=
  match ty, m with
  | RunWhileMonad, call_saga s =>
      Some (Return (SeesStage RunWhileSagaMonad (Some (withSaga d s))))
  | RunWhileSagaMonad, call_run
  | RunWhileOnViolationMonad, call_run =>
      Some (Return (SeesEffect (Some (runInternal d))))
  | RunWhileSagaMonad, call_invariant t cl
  | RunWhileInvariantMonad, call_invariant t cl =>
      Some (addInvariant d t cl)
  | RunWhileInvariantMonad, call_onViolation cb
  | RunWhileOnViolationMonad, call_onViolation cb =>
      Some (Return (SeesStage RunWhileOnViolationMonad (Some (withCallback d cb))))
  | _, _ => None
  end.

(** Any number of method calls, on any stages, one after the other. *)
Inductive calls : store → store → Prop :=
  | calls_none σ : calls σ σ
  | calls_more σ st m σ1 c σ2 :
      invoke σ st m = Some (σ1, c) → calls σ1 σ2 → calls σ σ2.


(** ** The middleware

    redux-saga drives a generator: it performs each yielded effect and
    resumes the generator with the answer.  [race], [select] and [call] are
    blocking effects: the generator is resumed when the effect has
    completed.  The middleware and everything it runs (the sagas, the
    watchers, the callbacks, the reducers) are a parameter: a world [W] and
    a function performing one effect in it.  What it runs can also read and
    write the arrays it can reach, so the function takes the arrays and
    returns them. *)

Definition Middleware (W : Type) : Type :=
  ∀ R : Type, Effect R → W → arrays → W * arrays * Resume R.

(** The array a call passes, and what it holds. *)
Definition arrayOf (c : CallEffect) : option loc :=
  match c with
  | CallCallback _ _ violations => Some violations
  | _ => None
  end.

Definition contents (h : arrays) (c : CallEffect) : option (list string) :=
  arrayOf c ≫= λ l, h !! l.

(** An effect performed: for a call, also what the array it passes held
    when the call was made ([received]) and when it was over ([after]). *)
Inductive Event :=
  | EvRace (raceDefinition : gmap string CallEffect) (answer : Resume JSObject)
  | EvSelect (answer : Resume S)
  | EvCall (c : CallEffect) (received : option (list string))
           (answer : Resume Value) (after : option (list string)).

Definition eventOf {R} (eff : Effect R) (h : arrays)
    : Resume R → arrays → Event :=
  match eff in Effect R return Resume R → arrays → Event with
  | Race raceDefinition => λ answer _, EvRace raceDefinition answer
  | Select => λ answer _, EvSelect answer
  | Call c => λ answer h1, EvCall c (contents h c) answer (contents h1 c)
  end.

(** Runs a generator to its end: the effects performed with their answers,
    in order, how the generator ended, and the world and the arrays it
    leaves.  A new array goes to a location not in use. *)
Fixpoint drive {W} (mw : Middleware W) (g : Gen) (w : W) (h : arrays)
    : list Event * Outcome * (W * arrays) :=
  match g with
  | Done result => ([], Completed result, (w, h))
  | Raised e => ([], Failed e, (w, h))
  | Returned => ([], Cancelled, (w, h))
  | Yield eff k =>
      let '(w1, h1, answer) := mw _ eff w h in
      let '(events, outcome, final) := drive mw (k answer) w1 h1 in
      (eventOf eff h answer h1 :: events, outcome, final)
  | NewArray elements k =>
      let l := fresh (dom h) in
      drive mw (k l) w (<[l := elements]> h)
  end.

Definition isSelect (ev : Event) : bool :=
  match ev with EvSelect _ => true | _ => false end.

(** How an effect was answered, as [endsAs] reads it. *)
Definition answered (ev : Event) : Outcome :=
  match ev with
  | EvRace _ answer => endsAs answer
  | EvSelect answer => endsAs answer
  | EvCall _ _ answer _ => endsAs answer
  end.

(** The event is a call of this callback with this state and this array. *)
Definition isCallOf (currentState : S) (violations : loc)
    (ev : Event) (callback : Callback) : Prop :=
  ∃ received answer after,
    ev = EvCall (CallCallback callback currentState violations) received answer after.

(** What the array held when the call was made. *)
Definition receivedBy (ev : Event) : option (list string) :=
  match ev with
  | EvCall _ received _ _ => received
  | _ => None
  end.

(** The callee left in the array what it found there. *)
Definition leftAlone (ev : Event) : Prop :=
  match ev with
  | EvCall _ received _ after => after = received
  | _ => True
  end.

(** Calls one after the other on one array: the first finds [held] in it,
    each next one finds what the one before it left. *)
Fixpoint handedOn (held : option (list string)) (events : list Event) : Prop :=
  match events with
  | [] => True
  | EvCall _ received _ after :: rest => received = held ∧ handedOn after rest
  | _ :: _ => False
  end.

(** The world and the arrays after the callbacks have run one after the
    other, each starting in the world and with the arrays the previous one
    left. *)
Definition afterCallbacks {W} (mw : Middleware W) (callbacks : list Callback)
    (currentState : S) (violations : loc) (start : W * arrays) : W * arrays :=
  foldl (fun '(w, h) callback =>
           (mw _ (Call (CallCallback callback currentState violations)) w h).1)
        start callbacks.

(** ** Running the task alone

    The comparison point for a definition without invariants: a generator
    that calls the task and returns what the task returned. *)
Definition taskAlone (task : SagaFn) : Gen :=
  result <~ Call (CallSaga task) ;; Done result.

(** The contract of the race primitive on a single branch: the race is over
    when the branch is, and ends as the branch ends; when the branch
    completes the result names its key. *)
Definition raceOfOne {W} (mw : Middleware W) : Prop :=
  ∀ (key : string) (c : CallEffect) (w : W) (h : arrays),
    mw _ (Race {[ key := c ]}) w h =
      let '(w1, h1, answer) := mw _ (Call c) w h in
      (w1, h1, match answer with
               | Next _ => Next (objectLiteral {[ key ]})
               | Throw e => Throw e
               | Cancel => Cancel
               end).

(** A generator's way of ending, but for what it returned. *)
Definition forgetResult (outcome : Outcome) : Outcome :=
  match outcome with
  | Completed _ => Completed undefined
  | Failed e => Failed e
  | Cancelled => Cancelled
  end.

(** ** Two middlewares to run examples with *)

(** Answers the race with a given result and [select] with a given state;
    every call completes, returns [undefined] and touches no array.  The
    world counts the effects performed. *)
Definition scripted (raceResults : JSObject) (currentState : S) : Middleware nat :=
  λ R eff n h,
    (n + 1, h,
     match eff in Effect R return Resume R with
     | Race _ => Next raceResults
     | Select => Next currentState
     | Call _ => Next undefined
     end).

(** Every call completes, returns [result] and is recorded in the world; a
    race is won by the first branch of the race definition. *)
Definition firstBranchWins (currentState : S) (result : Value)
    : Middleware (list CallEffect) :=
  λ R eff w h,
    match eff in Effect R return list CallEffect * arrays * Resume R with
    | Race raceDefinition =>
        match map_to_list raceDefinition with
        | (key, c) :: _ => ((w ++ [c])%list, h, Next (objectLiteral {[ key ]}))
        | [] => (w, h, Cancel)
        end
    | Select => (w, h, Next currentState)
    | Call c => ((w ++ [c])%list, h, Next result)
    end.

End RunWhile.

(** The last character of a string, by which the two error messages differ. *)
Fixpoint lastOf (s : string) : option ascii :=
  match s with
  | EmptyString => None
  | String a EmptyString => Some a
  | String _ rest => lastOf rest
  end.

(** ** Example definitions *)

Module Example.

(** The state is a counter; sagas and callbacks go by name. *)
Definition nonNegative : @Invariant Z :=
  {| tag := "nonNegative"; clause := λ count, Return (0 <=? count)%Z |}.

(** [runWhile().saga(T).invariant("nonNegative", ..).onViolation(H)] *)
Definition guarded : @RunWhileDefinition Z string string :=
  {| def_invariants := [nonNegative];
     def_onViolationCallbacks := ["H"];
     def_saga := userSaga "T" |}.

(** [runWhile().saga(T).onViolation(H)]: no invariant. *)
Definition unguarded : @RunWhileDefinition Z string string :=
  {| def_invariants := [];
     def_onViolationCallbacks := ["H"];
     def_saga := userSaga "T" |}.

(** [runWhile().saga(T).invariant("constructor", count => true).onViolation(H)]:
    a tag that is neither reserved nor taken, and a clause that always
    holds. *)
Definition inherited : @RunWhileDefinition Z string string :=
  {| def_invariants := [{| tag := "constructor"; clause := λ _, Return true |}];
     def_onViolationCallbacks := ["H"];
     def_saga := userSaga "T" |}.

(** [runWhile().saga(T).invariant("nonNegative", ..).onViolation(H1).onViolation(H2)] *)
Definition watched : @RunWhileDefinition Z string string :=
  {| def_invariants := [nonNegative];
     def_onViolationCallbacks := ["H1"; "H2"];
     def_saga := userSaga "T" |}.

(** A clause that throws on negative counts. *)
Definition brittle : @RunWhileDefinition Z string string :=
  {| def_invariants :=
       [ {| tag := "small"; clause := λ count, Return (count <? 10)%Z |};
         {| tag := "checked";
            clause := λ count,
              if (count <? 0)%Z then Throws {| message := "negative" |}
              else Return true |} ];
     def_onViolationCallbacks := ["H"];
     def_saga := userSaga "T" |}.

(** Three invariants and two callbacks. *)
Definition banded : @RunWhileDefinition Z string string :=
  {| def_invariants :=
       [ {| tag := "A"; clause := λ count, Return (0 <=? count)%Z |};
         {| tag := "B"; clause := λ count, Return (count <? 10)%Z |};
         {| tag := "C"; clause := λ count, Return (count <? 5)%Z |} ];
     def_onViolationCallbacks := ["H1"; "H2"];
     def_saga := userSaga "T" |}.

(** [runWhile()] on the empty store: the store it leaves, its stage, and the
    empty definition. *)
Definition started : gmap loc (@Cell Z string string) * Stage := runWhile ∅.

Definition empty : @RunWhileDefinition Z string string :=
  {| def_invariants := []; def_onViolationCallbacks := []; def_saga := nothing |}.

(** The store after [runWhile().saga(T)], and the stage it returns. *)
Definition afterSaga : option (gmap loc (@Cell Z string string) * Completion Stage) :=
  let '(σ0, st0) := runWhile ∅ in saga σ0 (definition st0) "T".

(** [runWhile().saga(T).invariant("constructor", count => true).onViolation(H)]
    as the builder runs it. *)
Definition inheritedBuilt : option (gmap loc (@Cell Z string string) * Completion Stage) :=
  chain (chain afterSaga (λ σ this, invariant σ this "constructor" (λ _, Return true)))
        (λ σ this, onViolation σ this "H").

(** [runWhile().saga(T).invariant("@@Saga", ..)] *)
Definition reservedFirst : option (gmap loc (@Cell Z string string) * Completion Stage) :=
  chain afterSaga (λ σ this, invariant σ this "@@Saga" (λ _, Return true)).

(** [runWhile().saga(T).invariant("b", ..).invariant("a", ..).invariant("b", ..)] *)
Definition takenSecond : option (gmap loc (@Cell Z string string) * Completion Stage) :=
  chain (chain (chain afterSaga (λ σ this, invariant σ this "b" (λ _, Return true)))
               (λ σ this, invariant σ this "a" (λ _, Return true)))
        (λ σ this, invariant σ this "b" (λ _, Return true)).

(** [runWhile().saga(T).invariant("a", ..).invariant("A", ..)] *)
Definition lowerThenUpper : option (gmap loc (@Cell Z string string) * Completion Stage) :=
  chain (chain afterSaga (λ σ this, invariant σ this "a" (λ _, Return true)))
        (λ σ this, invariant σ this "A" (λ _, Return false)).

(** What a chain ends with, and the configuration of the stage it returns. *)
Definition completionOf (r : option (gmap loc (@Cell Z string string) * Completion Stage))
    : option (Completion (option (@RunWhileDefinition Z string string))) :=
  r ≫= λ '(σ, c),
    Some match c with
         | Return st => Return (load σ (definition st))
         | Throws e => Throws e
         end.

End Example.

(** ** What the builder maintains, whole chains, and what a run shows *)

Section History.

Context {S Saga Callback : Type}.

Local Abbreviation Invariant := (@Invariant S).
Local Abbreviation RunWhileDefinition := (@RunWhileDefinition S Saga Callback).
Local Abbreviation Cell := (@Cell S Saga Callback).
Local Abbreviation Method := (@Method S Saga Callback).
Local Abbreviation Event := (@Event S Saga Callback).
Local Abbreviation store := (gmap loc Cell).

(** What line 104 and line 110 are there for: no tag twice, and no tag
    ['@@Saga']. *)
Definition wellTagged (d : RunWhileDefinition) : Prop :=
  NoDup (tagsOf d) ∧ (sagaRaceTag ∉ tagsOf d).

(** What each stage type says of the definition its methods are bound to,
    by the methods that return it: [saga] is called on the empty definition,
    [invariant] after [saga] or [invariant], [onViolation] after
    [invariant] or [onViolation]. *)
Definition stageShape (ty : StageType) (d : RunWhileDefinition) : Prop :=
  match ty with
  | RunWhileMonad =>
      def_invariants d = [] ∧ def_onViolationCallbacks d = [] ∧ def_saga d = nothing
  | RunWhileSagaMonad =>
      def_invariants d = [] ∧ def_onViolationCallbacks d = [] ∧
      ∃ s, def_saga d = userSaga s
  | RunWhileInvariantMonad =>
      def_invariants d ≠ [] ∧ def_onViolationCallbacks d = [] ∧
      ∃ s, def_saga d = userSaga s
  | RunWhileOnViolationMonad =>
      def_invariants d ≠ [] ∧ def_onViolationCallbacks d ≠ [] ∧
      ∃ s, def_saga d = userSaga s
  end.

(** The stages a caller can hold: the one [runWhile()] returns, the ones
    methods of such stages return, all of them for as long as the program
    goes on calling methods. *)
Inductive built : store → Stage → Prop :=
  | built_runWhile σ0 :
      built (runWhile σ0).1 (runWhile σ0).2
  | built_invoke σ st m σ' st' :
      built σ st →
      invoke σ st m = Some (σ', Return (AStage st')) →
      built σ' st'
  | built_later σ st σ' :
      built σ st → calls σ σ' → built σ' st.

(** A fluent chain [stage.m1(..).m2(..)...]: each method is called on the
    stage the previous one returned; a throw ends the chain there; [run]
    returns an effect, on which nothing more can be called.  [None] is a
    chain the stage types do not allow. *)
Fixpoint fluent (σ : store) (st : Stage) (ms : list Method)
    : option (store * Completion Result) :=
  match ms with
  | [] => Some (σ, Return (AStage st))
  | m :: rest =>
      match invoke σ st m with
      | Some (σ', Return (AStage st')) => fluent σ' st' rest
      | Some (σ', Return (AnEffect e)) =>
          match rest with
          | [] => Some (σ', Return (AnEffect e))
          | _ :: _ => None
          end
      | Some (σ', Throws e) => Some (σ', Throws e)
      | None => None
      end
  end.

(** [runWhile().m1(..).m2(..)...] *)
Definition fluentFrom (σ : store) (ms : list Method)
    : option (store * Completion Result) :=
  let '(σ0, st0) := runWhile σ in fluent σ0 st0 ms.

(** The chain that writes a configuration down:
    [.saga(s).invariant(t1, c1)...invariant(tn, cn).onViolation(h1)...onViolation(hm)]. *)
Definition chainOf (s : Saga) (invariants : list Invariant) (callbacks : list Callback)
    : list Method :=
  (call_saga s
     :: ((λ i, call_invariant (tag i) (clause i)) <$> invariants)
     ++ (call_onViolation <$> callbacks))%list.

(** The callbacks called in a run, in the order of the calls. *)
Definition calledCallbacks (events : list Event) : list Callback :=
  omap (λ ev, match ev with
              | EvCall (CallCallback callback _ _) _ _ _ => Some callback
              | _ => None
              end) events.

(** The calls a run is allowed to make: none; or, the state having been read
    and the violations computed from it without a clause throwing, calls of
    registered callbacks, first ones first, all with that state and with one
    and the same array, in which the first finds the violations and each
    next one what the one before it left. *)
Definition callsAreOf (this : RunWhileDefinition) (events : list Event) : Prop :=
  (∀ c received answer after, EvCall c received answer after ∉ events) ∨
  ∃ currentState elements violations before notified,
    events = (before ++ EvSelect (Next currentState) :: notified)%list ∧
    violationsOf this currentState = Return elements ∧
    Forall2 (isCallOf currentState violations) notified
            (take (List.length notified) (def_onViolationCallbacks this)) ∧
    handedOn (Some elements) notified.

End History.

(** ** Middlewares in which a callback fails, or writes to its array *)

Module Scenario.


(** As [scripted], but the callback named [meddler] does
    [violations.push("X")] before it returns. *)
Definition meddling (raceResults : JSObject) (currentState : Z) (meddler : string)
    : @Middleware Z string string nat :=
  λ R eff n h,
    (n + 1,
     match eff with
     | Call (CallCallback callback _ violations) =>
         if String.eqb callback meddler
         then alter (λ elements, elements ++ ["X"])%list violations h
         else h
     | _ => h
     end,
     match eff in Effect R return Resume R with
     | Race _ => Next raceResults
     | Select => Next currentState
     | Call _ => Next undefined
     end).

End Scenario.

(** * Properties of the generator *)

Section RunInternalFacts.

Context {S Saga Callback : Type}.

Local Abbreviation Invariant := (@Invariant S).
Local Abbreviation RunWhileDefinition := (@RunWhileDefinition S Saga Callback).
Local Abbreviation Middleware := (@Middleware S Saga Callback).
Local Abbreviation Event := (@Event S Saga Callback).

Implicit Types (this : RunWhileDefinition) (raceResults : JSObject)
  (currentState : S) (violations : loc) (elements : list string).

(** The test of line 167 succeeds as soon as the tag of one invariant is a
    key of the race result. *)
Lemma some_tag_in_raceResults this raceResults (i : Invariant) :
  i ∈ def_invariants this →
  tag i ∈ ownKeys raceResults →
  List.existsb (λ i, hasProperty (tag i) raceResults) (def_invariants this) = true.
Proof.
  intros Hi Hown. apply existsb_exists. exists i. split.
  - by apply list_elem_of_In.
  - unfold hasProperty. by rewrite bool_decide_eq_true_2.
Qed.

(** It fails when no tag is visible in the race result, neither as a key of
    its own nor through its prototype. *)
Lemma no_tag_in_raceResults this raceResults :
  (∀ i : Invariant, i ∈ def_invariants this →
     (tag i ∉ ownKeys raceResults) ∧ (tag i ∉ protoKeys raceResults)) →
  List.existsb (λ i, hasProperty (tag i) raceResults) (def_invariants this) = false.
Proof.
  intros Hno. apply not_true_is_false. intros Hex.
  apply existsb_exists in Hex as [i [Hi Hp]].
  apply list_elem_of_In in Hi. destruct (Hno i Hi) as [Hown Hproto].
  unfold hasProperty in Hp.
  rewrite !bool_decide_eq_false_2 in Hp; done.
Qed.

(** *** The violations *)

(** When no clause throws, the filter keeps the invariants whose clause is
    false, in the order of the array. *)
Lemma filterBroken_evaluates (invariants : list Invariant) currentState :
  Forall (λ j : Invariant, ∃ holds, clause j currentState = Return holds) invariants →
  filterBroken invariants currentState =
    Return (filter (λ j : Invariant, clause j currentState = Return false) invariants).
Proof.
  induction 1 as [|j l [holds Hj] _ IH]; [done|].
  simpl. rewrite Hj, IH, filter_cons.
  case_decide as Hfalse; rewrite Hj in Hfalse; destruct holds; simpl; congruence.
Qed.

(** When the filter returns, no clause threw. *)
Lemma filterBroken_Return (invariants broken : list Invariant) currentState :
  filterBroken invariants currentState = Return broken →
  Forall (λ j : Invariant, ∃ holds, clause j currentState = Return holds) invariants.
Proof.
  revert broken. induction invariants as [|j l IH]; intros broken; [by constructor|].
  simpl. destruct (clause j currentState) as [holds|e] eqn:Hj; [|done].
  destruct (filterBroken l currentState) as [broken'|e] eqn:Hl; [|done].
  intros _. constructor; [by exists holds | by eapply IH].
Qed.

(** When it throws, some clause threw that error, and the clauses before it
    returned. *)
Lemma filterBroken_Throws (invariants : list Invariant) currentState (e : Error) :
  filterBroken invariants currentState = Throws e →
  ∃ before j after,
    invariants = (before ++ j :: after)%list ∧
    clause j currentState = Throws e ∧
    Forall (λ k : Invariant, ∃ holds, clause k currentState = Return holds) before.
Proof.
  induction invariants as [|j l IH]; [done|].
  simpl. destruct (clause j currentState) as [holds|e'] eqn:Hj.
  - destruct (filterBroken l currentState) as [broken'|e'] eqn:Hl; [done|].
    intros [= ->]. destruct (IH eq_refl) as (before & k & after & -> & Hk & Hbefore).
    exists (j :: before), k, after. split_and!; [done | done |].
    constructor; [by exists holds | done].
  - intros [= ->]. by exists [], j, l.
Qed.

Lemma violationsOf_evaluates this currentState :
  Forall (λ j : Invariant, ∃ holds, clause j currentState = Return holds)
         (def_invariants this) →
  violationsOf this currentState =
    Return (tag <$> filter (λ j : Invariant, clause j currentState = Return false)
                           (def_invariants this)).
Proof.
  intros Hall. unfold violationsOf. by rewrite filterBroken_evaluates.
Qed.

Lemma violationsOf_Return this currentState elements :
  violationsOf this currentState = Return elements →
  Forall (λ j : Invariant, ∃ holds, clause j currentState = Return holds)
         (def_invariants this) ∧
  elements = tag <$> filter (λ j : Invariant, clause j currentState = Return false)
                            (def_invariants this).
Proof.
  intros Hret.
  assert (Forall (λ j : Invariant, ∃ holds, clause j currentState = Return holds)
                 (def_invariants this)) as Hall.
  { unfold violationsOf in Hret.
    destruct (filterBroken _ _) as [broken|e] eqn:Hf; [|done].
    by eapply filterBroken_Return. }
  split; [done|]. rewrite (violationsOf_evaluates _ _ Hall) in Hret. by injection Hret.
Qed.

Lemma violationsOf_Throws this currentState (e : Error) :
  violationsOf this currentState = Throws e →
  ∃ j : Invariant, j ∈ def_invariants this ∧ clause j currentState = Throws e.
Proof.
  unfold violationsOf. destruct (filterBroken _ _) as [broken|e'] eqn:Hf; [done|].
  intros [= ->]. destruct (filterBroken_Throws _ _ _ Hf) as (before & j & after & -> & Hj & _).
  exists j. split; [|done]. apply elem_of_app. right. apply list_elem_of_here.
Qed.

(** The violations are the tags of the invariants whose clause is false. *)
Lemma elem_of_violationsOf this currentState elements (t : string) :
  violationsOf this currentState = Return elements →
  t ∈ elements ↔
  ∃ i : Invariant, i ∈ def_invariants this ∧ tag i = t ∧
                   clause i currentState = Return false.
Proof.
  intros [_ ->]%violationsOf_Return. rewrite list_elem_of_fmap. split.
  - intros (i & -> & [Hfalse Hi]%list_elem_of_filter). by exists i.
  - intros (i & Hi & <- & Hfalse). exists i. split; [done|].
    by apply list_elem_of_filter.
Qed.

(** Nothing is reported when every clause holds. *)
Lemma violationsOf_none this currentState :
  (∀ j : Invariant, j ∈ def_invariants this → clause j currentState = Return true) →
  violationsOf this currentState = Return [].
Proof.
  intros Hholds. rewrite violationsOf_evaluates.
  - f_equal. induction (def_invariants this) as [|j l IH]; [done|].
    rewrite filter_cons, decide_False.
    + apply IH. intros j' Hj'. apply Hholds. by apply list_elem_of_further.
    + rewrite (Hholds j (list_elem_of_here _ _)). done.
  - apply Forall_forall. intros j Hj. exists true. by apply Hholds.
Qed.

(** They come in the order of registration. *)
Lemma broken_tags_sublist this currentState :
  tag <$> filter (λ j : Invariant, clause j currentState = Return false)
                 (def_invariants this)
    `sublist_of` tagsOf this.
Proof. unfold tagsOf. apply fmap_sublist, sublist_filter. Qed.

(** *** Calls on one array *)

(** Calls are not reads of the state. *)
Lemma calls_no_select (events : list Event) (callbacks : list Callback)
    currentState violations :
  Forall2 (isCallOf currentState violations) events callbacks →
  List.filter isSelect events = [] ∧
  calledCallbacks events = callbacks.
Proof.
  induction 1 as [|ev callback events callbacks (received & answer & after & ->) _ [IH1 IH2]];
    [done|].
  simpl. split; [done | by f_equal].
Qed.

(** When no callee writes to the array, every one of them finds in it what
    the first one found. *)
Lemma handedOn_leftAlone (events : list Event) (held : option (list string)) :
  handedOn held events →
  Forall leftAlone events →
  Forall (λ ev : Event, receivedBy ev = held) events.
Proof.
  revert held. induction events as [|ev events IH]; intros held; [by constructor|].
  destruct ev as [| |c received answer after]; simpl; try done.
  intros [-> Hrest] Hall. apply Forall_cons in Hall as [Hsame Hall]. simpl in Hsame.
  subst after. constructor; [done | by apply IH].
Qed.

(** *** The loop over the callbacks *)

Section Driven.

Context {W : Type} (mw : Middleware W).

(** The loop calls registered callbacks, first ones first, each with the
    state and the array the loop was entered with. *)
Lemma loop_calls callbacks currentState violations (w : W) (h : arrays) :
  Forall2 (isCallOf currentState violations)
    (drive mw (forEachCallback callbacks currentState violations) w h).1.1
    (take (List.length
             (drive mw (forEachCallback callbacks currentState violations) w h).1.1)
          callbacks).
Proof.
  revert w h. induction callbacks as [|callback rest IH]; intros w h; simpl.
  - constructor.
  - destruct (mw Value _ w h) as [[w1 h1] [v|e|]]; simpl.
    + specialize (IH w1 h1).
      destruct (drive mw (forEachCallback rest currentState violations) w1 h1)
        as [[events outcome] final]; simpl in *.
      constructor; [by eexists _, _, _ | done].
    + repeat constructor. by eexists _, _, _.
    + repeat constructor. by eexists _, _, _.
Qed.

(** The first call finds in the array what is there when the loop is
    entered; each next call finds what the call before it left. *)
Lemma loop_handedOn callbacks currentState violations (w : W) (h : arrays) :
  handedOn (h !! violations)
    (drive mw (forEachCallback callbacks currentState violations) w h).1.1.
Proof.
  revert w h. induction callbacks as [|callback rest IH]; intros w h; simpl; [done|].
  destruct (mw Value _ w h) as [[w1 h1] [v|e|]]; simpl; [|done..].
  specialize (IH w1 h1).
  destruct (drive mw (forEachCallback rest currentState violations) w1 h1)
    as [[events outcome] final]; simpl in *.
  done.
Qed.

(** The loop goes on as long as the calls complete. *)
Lemma loop_ends callbacks currentState violations (w : W) (h : arrays) :
  let run := drive mw (forEachCallback callbacks currentState violations) w h in
  (Forall (λ ev : Event, answered ev = Completed undefined) run.1.1 ∧
   calledCallbacks run.1.1 = callbacks ∧
   run.1.2 = Completed undefined ∧
   run.2 = afterCallbacks mw callbacks currentState violations (w, h))
  ∨ (∃ init lastEv,
       run.1.1 = (init ++ [lastEv])%list ∧
       Forall (λ ev : Event, answered ev = Completed undefined) init ∧
       answered lastEv ≠ Completed undefined ∧
       run.1.2 = answered lastEv).
Proof.
  revert w h. induction callbacks as [|callback rest IH]; intros w h; simpl.
  - left. by split_and!.
  - unfold afterCallbacks. simpl.
    destruct (mw Value _ w h) as [[w1 h1] [v|e|]] eqn:Hmw; simpl.
    + specialize (IH w1 h1). simpl in IH.
      destruct (drive mw (forEachCallback rest currentState violations) w1 h1)
        as [[events outcome] final]; simpl in *.
      destruct IH as [(Hall & Hcalled & -> & ->)
                     | (init & lastEv & -> & Hinit & Hlast & ->)].
      * left. split_and!; [by constructor | by rewrite Hcalled | done | done].
      * right. eexists (_ :: init), lastEv. split_and!; [done | by constructor | done..].
    + right. by eexists [], _.
    + right. by eexists [], _.
Qed.

(** When every call made in this run of the loop completed, every callback
    was called, once, in the order of the array, each in the world and with
    the arrays the one before it left. *)
Lemma loop_completed callbacks currentState violations (w : W) (h : arrays) :
  let run := drive mw (forEachCallback callbacks currentState violations) w h in
  Forall (λ ev : Event, answered ev = Completed undefined) run.1.1 →
  calledCallbacks run.1.1 = callbacks ∧
  run.1.2 = Completed undefined ∧
  run.2 = afterCallbacks mw callbacks currentState violations (w, h).
Proof.
  intros run Hall.
  destruct (loop_ends callbacks currentState violations w h)
    as [(_ & ? & ? & ?) | (init & lastEv & Hrun & _ & Hlast & _)]; [done|].
  fold run in Hrun. rewrite Hrun in Hall.
  apply Forall_app in Hall as [_ Hall]. by inversion Hall.
Qed.


(** It always makes the first call. *)
Lemma loop_starts callbacks currentState violations (w : W) (h : arrays) :
  (drive mw (forEachCallback callbacks currentState violations) w h).1.1 = [] →
  callbacks = [].
Proof.
  destruct callbacks as [|callback rest]; [done|]. simpl.
  destruct (mw Value _ w h) as [[w1 h1] [v|e|]]; simpl; [|done..].
  by destruct (drive mw (forEachCallback rest currentState violations) w1 h1)
    as [[events outcome] final].
Qed.

(** *** The generator from the race on *)

(** The generator up to the test of line 167. *)
Lemma drive_runInternal_race this (w0 : W) (h0 : arrays) :
  drive mw (runInternal this) w0 h0 =
    let '(w1, h1, answer) := mw _ (Race (raceDefinitionOf this)) w0 h0 in
    let '(events, outcome, final) :=
      drive mw
        match answer with
        | Next raceResults =>
            if List.existsb (λ i, hasProperty (tag i) raceResults)
                            (def_invariants this)
            then
              yield Select (λ currentState,
                match violationsOf this currentState with
                | Throws e => Raised e
                | Return elements =>
                    NewArray elements
                      (forEachCallback (def_onViolationCallbacks this) currentState)
                end)
            else Done undefined
        | Throw e => Raised e
        | Cancel => Returned
        end w1 h1 in
    (EvRace (raceDefinitionOf this) answer :: events, outcome, final).
Proof. reflexivity. Qed.

(** The branch not taken: the race is the only effect. *)
Lemma drive_runInternal_quiet this (w0 w1 : W) (h0 h1 : arrays) raceResults :
  mw _ (Race (raceDefinitionOf this)) w0 h0 = (w1, h1, Next raceResults) →
  List.existsb (λ i, hasProperty (tag i) raceResults) (def_invariants this) = false →
  drive mw (runInternal this) w0 h0 =
    ([EvRace (raceDefinitionOf this) (Next raceResults)], Completed undefined, (w1, h1)).
Proof.
  intros Hrace Hnone. rewrite drive_runInternal_race, Hrace, Hnone. reflexivity.
Qed.

(** The branch taken, up to the loop: the array is created at a location
    not in use and holds the violations when the loop is entered. *)
Lemma drive_runInternal_violated this (w0 w1 w2 : W) (h0 h1 h2 : arrays)
    raceResults currentState elements :
  mw _ (Race (raceDefinitionOf this)) w0 h0 = (w1, h1, Next raceResults) →
  List.existsb (λ i, hasProperty (tag i) raceResults) (def_invariants this) = true →
  mw _ Select w1 h1 = (w2, h2, Next currentState) →
  violationsOf this currentState = Return elements →
  drive mw (runInternal this) w0 h0 =
    let '(events, outcome, final) :=
      drive mw (forEachCallback (def_onViolationCallbacks this) currentState
                                (fresh (dom h2)))
            w2 (<[fresh (dom h2) := elements]> h2) in
    (EvRace (raceDefinitionOf this) (Next raceResults)
       :: EvSelect (Next currentState) :: events,
     outcome, final).
Proof.
  intros Hrace Hsome Hselect Hviolations.
  rewrite drive_runInternal_race, Hrace, Hsome.
  simpl. rewrite Hselect, Hviolations. simpl.
  by destruct (drive mw _ w2 _) as [[events outcome] final].
Qed.

(** The ways a run can go. *)
Lemma drive_runInternal_shapes this (w : W) (h : arrays) :
  let rd := raceDefinitionOf this in
  let taken raceResults :=
    List.existsb (λ i, hasProperty (tag i) raceResults) (def_invariants this) in
  (∃ answer,
     (drive mw (runInternal this) w h).1 = ([EvRace rd answer], endsAs answer) ∧
     ∀ raceResults, answer = Next raceResults → taken raceResults = false)
  ∨ (∃ raceResults answer,
       taken raceResults = true ∧
       (∀ currentState, answer ≠ Next currentState) ∧
       (drive mw (runInternal this) w h).1 =
         ([EvRace rd (Next raceResults); EvSelect answer], endsAs answer))
  ∨ (∃ raceResults currentState e,
       taken raceResults = true ∧
       violationsOf this currentState = Throws e ∧
       (drive mw (runInternal this) w h).1 =
         ([EvRace rd (Next raceResults); EvSelect (Next currentState)], Failed e))
  ∨ (∃ raceResults currentState elements w2 h2,
       taken raceResults = true ∧
       violationsOf this currentState = Return elements ∧
       h2 !! fresh (dom h2) = None ∧
       (drive mw (runInternal this) w h).1 =
         (EvRace rd (Next raceResults) :: EvSelect (Next currentState)
            :: (drive mw (forEachCallback (def_onViolationCallbacks this) currentState
                                          (fresh (dom h2)))
                      w2 (<[fresh (dom h2) := elements]> h2)).1.1,
          (drive mw (forEachCallback (def_onViolationCallbacks this) currentState
                                     (fresh (dom h2)))
                 w2 (<[fresh (dom h2) := elements]> h2)).1.2)).
Proof.
  intros rd taken. rewrite drive_runInternal_race. fold rd.
  destruct (mw _ (Race rd) w h) as [[w1 h1] [raceResults|e|]].
  - fold (taken raceResults). destruct (taken raceResults) eqn:Htaken.
    + right. simpl. destruct (mw _ Select w1 h1) as [[w2 h2] [currentState|e|]].
      * right. destruct (violationsOf this currentState) as [elements|e] eqn:Hv.
        -- right. exists raceResults, currentState, elements, w2, h2.
           split_and!; [done | done | apply not_elem_of_dom, is_fresh |].
           simpl.
           by destruct (drive mw (forEachCallback _ _ _) w2 _) as [[events outcome] final].
        -- left. exists raceResults, currentState, e. by split_and!.
      * left. exists raceResults, (Throw e). by split_and!.
      * left. exists raceResults, Cancel. by split_and!.
    + left. exists (Next raceResults). split; [done|]. by intros r [= <-].
  - left. exists (Throw e). by split.
  - left. exists Cancel. by split.
Qed.

End Driven.

End RunInternalFacts.

(** * Properties of the builder *)

Section BuilderFacts.

Context {S Saga Callback : Type}.

Local Abbreviation Invariant := (@Invariant S).
Local Abbreviation RunWhileDefinition := (@RunWhileDefinition S Saga Callback).
Local Abbreviation Cell := (@Cell S Saga Callback).
Local Abbreviation store := (gmap loc Cell).

Implicit Types (σ : store) (this : loc) (d : RunWhileDefinition) (t : string).

(** *** Allocation *)

Lemma fresh_None σ : σ !! fresh (dom σ) = None.
Proof. apply not_elem_of_dom, is_fresh. Qed.

Lemma alloc_fresh σ (c : Cell) : σ !! (alloc σ c).1 = None.
Proof. apply fresh_None. Qed.

Lemma alloc_lookup σ (c : Cell) : (alloc σ c).2 !! (alloc σ c).1 = Some c.
Proof. simpl. apply lookup_insert_eq. Qed.

Lemma alloc_subseteq σ (c : Cell) : σ ⊆ (alloc σ c).2.
Proof. simpl. apply insert_subseteq, (alloc_fresh σ c). Qed.

(** A store that only grew still holds every configuration it held. *)
Lemma load_weaken σ σ' this d :
  σ ⊆ σ' → load σ this = Some d → load σ' this = Some d.
Proof.
  intros Hsub. unfold load.
  destruct (σ !! this) as [[il cl s| |]|] eqn:Hthis; try done.
  destruct (σ !! il) as [[| invariants |]|] eqn:Hil; try done.
  destruct (σ !! cl) as [[| | callbacks]|] eqn:Hcl; try done.
  intros Hd.
  rewrite (lookup_weaken _ _ _ _ Hthis Hsub), (lookup_weaken _ _ _ _ Hil Hsub),
    (lookup_weaken _ _ _ _ Hcl Hsub).
  done.
Qed.

(** The parts of a loaded configuration, in the store. *)
Lemma load_Some σ this d :
  load σ this = Some d →
  ∃ il cl,
    σ !! this = Some (DefinitionObject il cl (def_saga d)) ∧
    σ !! il = Some (InvariantArray (def_invariants d)) ∧
    σ !! cl = Some (CallbackArray (def_onViolationCallbacks d)).
Proof.
  unfold load.
  destruct (σ !! this) as [[il cl s| |]|] eqn:Hthis; try done.
  destruct (σ !! il) as [[| invariants |]|] eqn:Hil; try done.
  destruct (σ !! cl) as [[| | callbacks]|] eqn:Hcl; try done.
  intros [= <-]. by exists il, cl.
Qed.

(** The duplicate test of line 110, on the tags. *)
Lemma existsb_tag (invariants : list Invariant) t :
  List.existsb (λ i, String.eqb (tag i) t) invariants = true ↔ t ∈ tag <$> invariants.
Proof.
  rewrite existsb_exists, list_elem_of_fmap. split.
  - intros [i [Hi Heq%String.eqb_eq]]. exists i. by rewrite list_elem_of_In.
  - intros [i [-> Hi]]. exists i. rewrite <- list_elem_of_In.
    split; [done | apply String.eqb_refl].
Qed.

(** *** The three construction methods, on the contents *)

Lemma saga_spec σ this d (s : Saga) :
  load σ this = Some d →
  ∃ σ' definition,
    saga σ this s = Some (σ', Return {| stageType := RunWhileSagaMonad; definition := definition |}) ∧
    σ ⊆ σ' ∧ σ !! definition = None ∧
    load σ' definition = Some (withSaga d s).
Proof.
  intros Hload. destruct (load_Some _ _ _ Hload) as (il & cl & Hthis & Hil & Hcl).
  unfold saga. rewrite Hthis.
  set (c := DefinitionObject il cl (userSaga s)).
  pose proof (alloc_fresh σ c) as Hfresh.
  pose proof (alloc_subseteq σ c) as Hsub.
  pose proof (alloc_lookup σ c) as Hnew.
  destruct (alloc σ c) as [definition σ'] eqn:Halloc. simpl in Hfresh, Hsub, Hnew.
  exists σ', definition. split_and!; try done.
  unfold load. rewrite Hnew. unfold c.
  by rewrite (lookup_weaken _ _ _ _ Hil Hsub), (lookup_weaken _ _ _ _ Hcl Hsub).
Qed.

Lemma invariant_reserved σ this (cl : S → Completion bool) :
  invariant σ this sagaRaceTag cl =
    Some (σ, Throws {| message := reservedMessage sagaRaceTag |}).
Proof. reflexivity. Qed.

Lemma invariant_duplicate σ this d t (cl : S → Completion bool) :
  load σ this = Some d →
  t ≠ sagaRaceTag →
  t ∈ tagsOf d →
  invariant σ this t cl = Some (σ, Throws {| message := duplicateMessage t |}).
Proof.
  intros Hload Hne Hin.
  destruct (load_Some _ _ _ Hload) as (il & cbl & Hthis & Hil & Hcl).
  unfold invariant. apply String.eqb_neq in Hne. rewrite Hne, Hthis, Hil.
  apply existsb_tag in Hin. by rewrite Hin.
Qed.

Lemma invariant_spec σ this d t (cl : S → Completion bool) :
  load σ this = Some d →
  t ≠ sagaRaceTag →
  t ∉ tagsOf d →
  ∃ σ' definition,
    invariant σ this t cl = Some (σ', Return {| stageType := RunWhileInvariantMonad; definition := definition |}) ∧
    σ ⊆ σ' ∧ σ !! definition = None ∧
    load σ' definition = Some (withInvariant d t cl).
Proof.
  intros Hload Hne Hnotin.
  destruct (load_Some _ _ _ Hload) as (il & cbl & Hthis & Hil & Hcl).
  unfold invariant. apply String.eqb_neq in Hne. rewrite Hne, Hthis, Hil.
  destruct (List.existsb _ _) eqn:Hdup.
  { apply existsb_tag in Hdup. done. }
  set (c1 := InvariantArray (def_invariants d ++ [{| tag := t; clause := cl |}])).
  pose proof (alloc_subseteq σ c1) as Hsub1.
  pose proof (alloc_lookup σ c1) as Hnew1.
  destruct (alloc σ c1) as [il' σ1] eqn:Halloc1. simpl in Hsub1, Hnew1.
  set (c2 := DefinitionObject il' cbl (def_saga d)).
  pose proof (alloc_fresh σ1 c2) as Hfresh2.
  pose proof (alloc_subseteq σ1 c2) as Hsub2.
  pose proof (alloc_lookup σ1 c2) as Hnew2.
  destruct (alloc σ1 c2) as [definition σ2] eqn:Halloc2. simpl in Hfresh2, Hsub2, Hnew2.
  exists σ2, definition. split_and!.
  - done.
  - by transitivity σ1.
  - destruct (σ !! definition) eqn:Hold; [|done].
    by rewrite (lookup_weaken _ _ _ _ Hold Hsub1) in Hfresh2.
  - unfold load. rewrite Hnew2. unfold c2.
    rewrite (lookup_weaken _ _ _ _ Hnew1 Hsub2).
    assert (σ ⊆ σ2) as Hsub by by transitivity σ1.
    by rewrite (lookup_weaken _ _ _ _ Hcl Hsub).
Qed.

Lemma onViolation_spec σ this d (callback : Callback) :
  load σ this = Some d →
  ∃ σ' definition,
    onViolation σ this callback =
      Some (σ', Return {| stageType := RunWhileOnViolationMonad; definition := definition |}) ∧
    σ ⊆ σ' ∧ σ !! definition = None ∧
    load σ' definition = Some (withCallback d callback).
Proof.
  intros Hload.
  destruct (load_Some _ _ _ Hload) as (il & cbl & Hthis & Hil & Hcl).
  unfold onViolation. rewrite Hthis, Hcl.
  set (c1 := CallbackArray (def_onViolationCallbacks d ++ [callback])).
  pose proof (alloc_subseteq σ c1) as Hsub1.
  pose proof (alloc_lookup σ c1) as Hnew1.
  destruct (alloc σ c1) as [cbl' σ1] eqn:Halloc1. simpl in Hsub1, Hnew1.
  set (c2 := DefinitionObject il cbl' (def_saga d)).
  pose proof (alloc_fresh σ1 c2) as Hfresh2.
  pose proof (alloc_subseteq σ1 c2) as Hsub2.
  pose proof (alloc_lookup σ1 c2) as Hnew2.
  destruct (alloc σ1 c2) as [definition σ2] eqn:Halloc2. simpl in Hfresh2, Hsub2, Hnew2.
  exists σ2, definition. split_and!.
  - done.
  - by transitivity σ1.
  - destruct (σ !! definition) eqn:Hold; [|done].
    by rewrite (lookup_weaken _ _ _ _ Hold Hsub1) in Hfresh2.
  - unfold load. rewrite Hnew2. unfold c2.
    rewrite (lookup_weaken _ _ _ _ Hnew1 Hsub2).
    assert (σ ⊆ σ2) as Hsub by by transitivity σ1.
    by rewrite (lookup_weaken _ _ _ _ Hil Hsub).
Qed.

(** The three ways [invariant] can go, by the tag. *)
Lemma invariant_cases σ this d t (cl : S → Completion bool) :
  load σ this = Some d →
  (t = sagaRaceTag ∧
     invariant σ this t cl = Some (σ, Throws {| message := reservedMessage t |}))
  ∨ (t ≠ sagaRaceTag ∧ t ∈ tagsOf d ∧
     invariant σ this t cl = Some (σ, Throws {| message := duplicateMessage t |}))
  ∨ (t ≠ sagaRaceTag ∧ (t ∉ tagsOf d) ∧
     ∃ σ' definition,
       invariant σ this t cl =
         Some (σ', Return {| stageType := RunWhileInvariantMonad;
                             definition := definition |}) ∧
       σ ⊆ σ' ∧ σ !! definition = None ∧
       load σ' definition = Some (withInvariant d t cl)).
Proof.
  intros Hload. destruct (decide (t = sagaRaceTag)) as [->|Hne].
  { left. split; [done | apply invariant_reserved]. }
  right. destruct (decide (t ∈ tagsOf d)) as [Hin|Hnotin].
  - left. split_and!; [done..|]. by apply (invariant_duplicate _ _ d).
  - right. split_and!; [done..|]. by apply (invariant_spec _ _ d).
Qed.

(** *** The store only grows *)

Lemma saga_subseteq σ this (s : Saga) σ' c :
  saga σ this s = Some (σ', c) → σ ⊆ σ'.
Proof.
  unfold saga. destruct (σ !! this) as [[il cl s0| |]|]; try done.
  intros [= <- <-]. apply (alloc_subseteq σ).
Qed.

Lemma invariant_subseteq σ this t (cl : S → Completion bool) σ' c :
  invariant σ this t cl = Some (σ', c) → σ ⊆ σ'.
Proof.
  unfold invariant. destruct (String.eqb t sagaRaceTag).
  { by intros [= <- <-]. }
  destruct (σ !! this) as [[il cbl s| |]|]; try done.
  destruct (σ !! il) as [[| invariants |]|]; try done.
  destruct (List.existsb _ _).
  { by intros [= <- <-]. }
  intros [= <- <-].
  etransitivity; [apply (alloc_subseteq σ) | apply (alloc_subseteq _)].
Qed.

Lemma onViolation_subseteq σ this (callback : Callback) σ' c :
  onViolation σ this callback = Some (σ', c) → σ ⊆ σ'.
Proof.
  unfold onViolation. destruct (σ !! this) as [[il cbl s| |]|]; try done.
  destruct (σ !! cbl) as [[| | callbacks]|]; try done.
  intros [= <- <-].
  etransitivity; [apply (alloc_subseteq σ) | apply (alloc_subseteq _)].
Qed.

Create HintDb grows.
#[local] Hint Resolve saga_subseteq invariant_subseteq onViolation_subseteq : grows.

Lemma liftStage_Some (r : option (store * Completion Stage)) σ' c :
  liftStage r = Some (σ', c) →
  ∃ c0, r = Some (σ', c0) ∧
        c = match c0 with Return st => Return (AStage st) | Throws e => Throws e end.
Proof.
  destruct r as [[σ0 c0]|]; [|done]. simpl. intros [= <- <-]. by exists c0.
Qed.

Lemma invoke_subseteq σ (st : Stage) (m : @Method S Saga Callback) σ' c :
  invoke σ st m = Some (σ', c) → σ ⊆ σ'.
Proof.
  unfold invoke. destruct (stageType st), m; try done;
    try (by intros [= <- <-]);
    intros (c0 & Hcall & _)%liftStage_Some; eauto with grows.
Qed.

Lemma calls_subseteq σ σ' : calls σ σ' → σ ⊆ σ'.
Proof.
  induction 1 as [|σ st m σ1 c σ2 Hcall _ IH]; [done|].
  etransitivity; [by eapply invoke_subseteq | done].
Qed.

(** *** The builder on the store does what it does on the contents *)

(** An [invariant] call observed, against [addInvariant], by the three ways
    the call can go. *)
Local Ltac observe_invariant σ this d t cl Hload :=
  let Hne := fresh "Hne" in
  let Hin := fresh "Hin" in
  let Hnew := fresh "Hnew" in
  let Hdup := fresh "Hdup" in
  unfold addInvariant;
  destruct (invariant_cases σ this d t cl Hload)
    as [[-> ->] | [(Hne & Hin & ->) | (Hne & Hin & ? & ? & -> & _ & _ & Hnew)]];
  simpl; [done | |];
  apply String.eqb_neq in Hne; rewrite Hne;
  [ apply existsb_tag in Hin; by rewrite Hin
  | rewrite Hnew; destruct (List.existsb _ _) eqn:Hdup;
    [by apply existsb_tag in Hdup | done] ].

Lemma observe_expected σ (st : Stage) d (m : Method) :
  load σ (definition st) = Some d →
  observe σ st m = expected (stageType st) d m.
Proof.
  destruct st as [ty this]. simpl. intros Hload.
  unfold observe, invoke, boundRunInternal. simpl.
  destruct ty, m as [s | t cl | callback |]; simpl; try done;
    try (by rewrite Hload).
  - destruct (saga_spec σ this d s Hload) as (σ' & new & -> & _ & _ & Hnew).
    simpl. by rewrite Hnew.
  - observe_invariant σ this d t cl Hload.
  - observe_invariant σ this d t cl Hload.
  - destruct (onViolation_spec σ this d callback Hload) as (σ' & new & -> & _ & _ & Hnew).
    simpl. by rewrite Hnew.
  - destruct (onViolation_spec σ this d callback Hload) as (σ' & new & -> & _ & _ & Hnew).
    simpl. by rewrite Hnew.
Qed.

End BuilderFacts.

(** *** The two error messages *)

Lemma lastOf_append (s : string) (a : ascii) (rest : string) :
  lastOf (s ++ String a rest) = lastOf (String a rest).
Proof.
  induction s as [|b s IH]; [done|].
  change (String b s ++ String a rest) with (String b (s ++ String a rest)).
  rewrite <- IH. simpl. by destruct s.
Qed.

Lemma messages_differ (t1 t2 : string) : reservedMessage t1 ≠ duplicateMessage t2.
Proof.
  intros Heq. apply (f_equal lastOf) in Heq.
  unfold reservedMessage, duplicateMessage in Heq.
  rewrite !lastOf_append in Heq. discriminate Heq.
Qed.

(** * The supervisor: what [runInternal] does with the race result *)

Section Supervisor.

Context {S Saga Callback : Type}.

Local Abbreviation Invariant := (@Invariant S).
Local Abbreviation RunWhileDefinition := (@RunWhileDefinition S Saga Callback).
Local Abbreviation CallEffect := (@CallEffect S Saga Callback).
Local Abbreviation Cell := (@Cell S Saga Callback).
Local Abbreviation Middleware := (@Middleware S Saga Callback).
Local Abbreviation Event := (@Event S Saga Callback).
Local Abbreviation store := (gmap loc Cell).

Implicit Types (this : RunWhileDefinition) (raceResults : JSObject)
  (currentState : S) (i : Invariant).

(** Where the task alone completes the race and no tag is the name of an
    inherited property of the race result, the race is the only effect. *)
Lemma sentinel_only_quiet {W} (mw : Middleware W) this (w0 w1 : W) (h0 h1 : arrays)
    raceResults :
  mw _ (Race (raceDefinitionOf this)) w0 h0 = (w1, h1, Next raceResults) →
  ownKeys raceResults = {[ sagaRaceTag ]} →
  (∀ i, i ∈ def_invariants this →
     tag i ≠ sagaRaceTag ∧ (tag i ∉ protoKeys raceResults)) →
  drive mw (runInternal this) w0 h0 =
    ([EvRace (raceDefinitionOf this) (Next raceResults)], Completed undefined, (w1, h1)).
Proof.
  intros Hrace Hown Htags. apply drive_runInternal_quiet; [done|].
  apply no_tag_in_raceResults. intros i Hi.
  destruct (Htags i Hi) as [Hne Hproto]. split; [|done].
  rewrite Hown. by intros Hin%elem_of_singleton.
Qed.

(** C1, as amended.  When the race result has the tag of a registered
    invariant among its keys and no clause throws on the state read, the
    generator reads the state once, and creates one new array holding the
    tags of all registered invariants whose clause is false on that state,
    in the order of registration, whatever the race result.  That array is
    what it reports: the first callback is always called and finds exactly
    this list in it; each next callback is called when the one before it has
    completed; every call passes that state and that same array, so that a
    later callback finds what the callbacks before it left, which is this
    list when none of them wrote to the array. *)
Theorem C1_violations_from_one_snapshot {W} (mw : Middleware W) this
    (w0 w1 w2 : W) (h0 h1 h2 : arrays) raceResults currentState i :
  mw _ (Race (raceDefinitionOf this)) w0 h0 = (w1, h1, Next raceResults) →
  i ∈ def_invariants this →
  tag i ∈ ownKeys raceResults →
  mw _ Select w1 h1 = (w2, h2, Next currentState) →
  Forall (λ j : Invariant, ∃ holds, clause j currentState = Return holds)
         (def_invariants this) →
  let computed :=
    tag <$> filter (λ j : Invariant, clause j currentState = Return false)
                   (def_invariants this) in
  let violations := fresh (dom h2) in
  ∃ notified,
    (drive mw (runInternal this) w0 h0).1.1 =
      EvRace (raceDefinitionOf this) (Next raceResults)
        :: EvSelect (Next currentState) :: notified ∧
    List.length (List.filter isSelect (drive mw (runInternal this) w0 h0).1.1) = 1 ∧
    computed `sublist_of` tagsOf this ∧
    h2 !! violations = None ∧
    Forall2 (isCallOf currentState violations) notified
            (take (List.length notified) (def_onViolationCallbacks this)) ∧
    (notified = [] → def_onViolationCallbacks this = []) ∧
    (Forall (λ ev : Event, answered ev = Completed undefined) notified →
     calledCallbacks notified = def_onViolationCallbacks this) ∧
    handedOn (Some computed) notified ∧
    (Forall leftAlone notified →
     Forall (λ ev : Event, receivedBy ev = Some computed) notified).
Proof.
  intros Hrace Hi Hown Hselect Hclauses computed violations.
  pose proof (some_tag_in_raceResults this raceResults i Hi Hown) as Hsome.
  pose proof (violationsOf_evaluates this currentState Hclauses) as Hcomputed.
  fold computed in Hcomputed.
  rewrite (drive_runInternal_violated mw this w0 w1 w2 h0 h1 h2 raceResults
             currentState computed Hrace Hsome Hselect Hcomputed).
  fold violations.
  pose proof (loop_calls mw (def_onViolationCallbacks this) currentState violations
                w2 (<[violations := computed]> h2)) as Hcalls.
  pose proof (loop_handedOn mw (def_onViolationCallbacks this) currentState violations
                w2 (<[violations := computed]> h2)) as Hhanded.
  pose proof (loop_starts mw (def_onViolationCallbacks this) currentState violations
                w2 (<[violations := computed]> h2)) as Hstarts.
  pose proof (loop_completed mw (def_onViolationCallbacks this) currentState violations
                w2 (<[violations := computed]> h2)) as Hcompleted.
  rewrite lookup_insert_eq in Hhanded.
  destruct (drive mw (forEachCallback _ _ _) w2 _) as [[notified outcome] final].
  simpl in *. exists notified.
  destruct (calls_no_select _ _ _ _ Hcalls) as [Hnoread _].
  split_and!; try done.
  - by rewrite Hnoread.
  - apply broken_tags_sublist.
  - apply not_elem_of_dom, is_fresh.
  - intros Hall. by destruct (Hcompleted Hall) as (? & _).
  - by apply handedOn_leftAlone.
Qed.

(** C4, as amended.  When the tag of an invariant is a key of the race
    result and yet every clause holds on the state read afterwards, the
    callbacks are called all the same: the first one always, each next one
    when the one before it has completed, so that all of them are called,
    once and in order, when all complete.  They are all passed one new
    array, in which the first finds the empty list, and so does every later
    one when no callback before it wrote to the array. *)
Theorem C4_flapped_back_still_notified {W} (mw : Middleware W) this
    (w0 w1 w2 : W) (h0 h1 h2 : arrays) raceResults currentState i :
  mw _ (Race (raceDefinitionOf this)) w0 h0 = (w1, h1, Next raceResults) →
  i ∈ def_invariants this →
  tag i ∈ ownKeys raceResults →
  mw _ Select w1 h1 = (w2, h2, Next currentState) →
  (∀ j, j ∈ def_invariants this → clause j currentState = Return true) →
  let violations := fresh (dom h2) in
  ∃ notified,
    (drive mw (runInternal this) w0 h0).1.1 =
      EvRace (raceDefinitionOf this) (Next raceResults)
        :: EvSelect (Next currentState) :: notified ∧
    h2 !! violations = None ∧
    Forall2 (isCallOf currentState violations) notified
            (take (List.length notified) (def_onViolationCallbacks this)) ∧
    (notified = [] → def_onViolationCallbacks this = []) ∧
    handedOn (Some []) notified ∧
    (Forall (λ ev : Event, answered ev = Completed undefined) notified →
     calledCallbacks notified = def_onViolationCallbacks this ∧
     (drive mw (runInternal this) w0 h0).1.2 = Completed undefined) ∧
    (Forall leftAlone notified →
     Forall (λ ev : Event, receivedBy ev = Some []) notified).
Proof.
  intros Hrace Hi Hown Hselect Hholds violations.
  pose proof (some_tag_in_raceResults this raceResults i Hi Hown) as Hsome.
  pose proof (violationsOf_none this currentState Hholds) as Hnone.
  rewrite (drive_runInternal_violated mw this w0 w1 w2 h0 h1 h2 raceResults
             currentState [] Hrace Hsome Hselect Hnone).
  fold violations.
  pose proof (loop_calls mw (def_onViolationCallbacks this) currentState violations
                w2 (<[violations := []]> h2)) as Hcalls.
  pose proof (loop_handedOn mw (def_onViolationCallbacks this) currentState violations
                w2 (<[violations := []]> h2)) as Hhanded.
  pose proof (loop_starts mw (def_onViolationCallbacks this) currentState violations
                w2 (<[violations := []]> h2)) as Hstarts.
  pose proof (loop_completed mw (def_onViolationCallbacks this) currentState violations
                w2 (<[violations := []]> h2)) as Hcompleted.
  rewrite lookup_insert_eq in Hhanded.
  destruct (drive mw (forEachCallback _ _ _) w2 _) as [[notified outcome] final].
  simpl in *. exists notified. split_and!; try done.
  - apply not_elem_of_dom, is_fresh.
  - intros Hall. by destruct (Hcompleted Hall) as (? & ? & _).
  - by apply handedOn_leftAlone.
Qed.

(** C5, as amended.  On the violation path (the test of line 167 succeeds,
    the state has been read, no clause throws), the generator calls the
    registered callbacks in the order of registration, the first one always
    and each next one when the one before it has completed; when all
    complete, every one has been called exactly once, each in the world and
    with the arrays the one before it left, and the generator returns.
    Every call passes the same state and the same array, created for this
    run: the first callback finds the computed violations in it, each next
    one what the one before it left there, which is the computed violations
    when no callback wrote to the array. *)
Theorem C5_callbacks_once_in_order {W} (mw : Middleware W) this
    (w0 w1 w2 : W) (h0 h1 h2 : arrays) raceResults currentState i :
  mw _ (Race (raceDefinitionOf this)) w0 h0 = (w1, h1, Next raceResults) →
  i ∈ def_invariants this →
  hasProperty (tag i) raceResults = true →
  mw _ Select w1 h1 = (w2, h2, Next currentState) →
  Forall (λ j : Invariant, ∃ holds, clause j currentState = Return holds)
         (def_invariants this) →
  let computed :=
    tag <$> filter (λ j : Invariant, clause j currentState = Return false)
                   (def_invariants this) in
  let violations := fresh (dom h2) in
  ∃ notified,
    (drive mw (runInternal this) w0 h0).1.1 =
      EvRace (raceDefinitionOf this) (Next raceResults)
        :: EvSelect (Next currentState) :: notified ∧
    h2 !! violations = None ∧
    Forall2 (isCallOf currentState violations) notified
            (take (List.length notified) (def_onViolationCallbacks this)) ∧
    (notified = [] → def_onViolationCallbacks this = []) ∧
    handedOn (Some computed) notified ∧
    (Forall (λ ev : Event, answered ev = Completed undefined) notified →
     calledCallbacks notified = def_onViolationCallbacks this ∧
     (drive mw (runInternal this) w0 h0).1.2 = Completed undefined ∧
     (drive mw (runInternal this) w0 h0).2 =
       afterCallbacks mw (def_onViolationCallbacks this) currentState violations
                      (w2, <[violations := computed]> h2)) ∧
    (Forall leftAlone notified →
     Forall (λ ev : Event, receivedBy ev = Some computed) notified).
Proof.
  intros Hrace Hi Hprop Hselect Hclauses computed violations.
  assert (List.existsb (λ i, hasProperty (tag i) raceResults) (def_invariants this) = true)
    as Hsome.
  { apply existsb_exists. exists i. by rewrite <- list_elem_of_In. }
  pose proof (violationsOf_evaluates this currentState Hclauses) as Hcomputed.
  fold computed in Hcomputed.
  rewrite (drive_runInternal_violated mw this w0 w1 w2 h0 h1 h2 raceResults
             currentState computed Hrace Hsome Hselect Hcomputed).
  fold violations.
  pose proof (loop_calls mw (def_onViolationCallbacks this) currentState violations
                w2 (<[violations := computed]> h2)) as Hcalls.
  pose proof (loop_handedOn mw (def_onViolationCallbacks this) currentState violations
                w2 (<[violations := computed]> h2)) as Hhanded.
  pose proof (loop_starts mw (def_onViolationCallbacks this) currentState violations
                w2 (<[violations := computed]> h2)) as Hstarts.
  pose proof (loop_completed mw (def_onViolationCallbacks this) currentState violations
                w2 (<[violations := computed]> h2)) as Hcompleted.
  rewrite lookup_insert_eq in Hhanded.
  destruct (drive mw (forEachCallback _ _ _) w2 _) as [[notified outcome] final].
  simpl in *. exists notified. split_and!; try done.
  - apply not_elem_of_dom, is_fresh.
  - by apply handedOn_leftAlone.
Qed.

(** C6, as amended.  On a stage whose definition has no invariants, [run()]
    returns the call of [runInternal] bound to that definition, and the
    generator it stands for races the task alone: the race definition has
    the one branch of the task, and whatever the race answers the generator
    ends there as the race ended, having read no state and called no
    callback.  Under a race primitive that treats a single branch as a call
    of that branch, it completes, fails or is cancelled as the task called
    alone does, and leaves the world and the arrays as the task called alone
    leaves them; but it returns [undefined] where the task called alone
    returns the task's result. *)
Theorem C6_no_invariants_task_alone {W} (mw : Middleware W)
    (σ σ' : store) (st : Stage) (d : RunWhileDefinition) (e : CallEffect) :
  load σ (definition st) = Some d →
  def_invariants d = [] →
  invoke σ st call_run = Some (σ', Return (AnEffect e)) →
  σ' = σ ∧
  e = CallRunInternal (definition st) ∧
  boundRunInternal σ (definition st) = Some (runInternal d) ∧
  raceDefinitionOf d = {[ sagaRaceTag := CallSaga (def_saga d) ]} ∧
  (∀ (w : W) (h : arrays),
     drive mw (runInternal d) w h =
       ([EvRace (raceDefinitionOf d) (mw _ (Race (raceDefinitionOf d)) w h).2],
        endsAs (mw _ (Race (raceDefinitionOf d)) w h).2,
        (mw _ (Race (raceDefinitionOf d)) w h).1)) ∧
  (raceOfOne mw →
   ∀ (w : W) (h : arrays),
     (drive mw (runInternal d) w h).1.2 =
       forgetResult (drive mw (taskAlone (def_saga d)) w h).1.2 ∧
     (drive mw (runInternal d) w h).2 = (drive mw (taskAlone (def_saga d)) w h).2).
Proof.
  intros Hload Hnone Hcall.
  assert (σ' = σ ∧ e = CallRunInternal (definition st)) as [-> ->].
  { unfold invoke in Hcall.
    destruct (stageType st); try done;
      try (apply liftStage_Some in Hcall as (c0 & _ & Hc); by destruct c0);
      by injection Hcall as <- <-. }
  assert (raceDefinitionOf d = {[ sagaRaceTag := CallSaga (def_saga d) ]}) as Hdef.
  { unfold raceDefinitionOf. by rewrite Hnone. }
  assert (∀ (w : W) (h : arrays),
     drive mw (runInternal d) w h =
       ([EvRace (raceDefinitionOf d) (mw _ (Race (raceDefinitionOf d)) w h).2],
        endsAs (mw _ (Race (raceDefinitionOf d)) w h).2,
        (mw _ (Race (raceDefinitionOf d)) w h).1)) as Hquiet.
  { intros w h. rewrite drive_runInternal_race.
    destruct (mw _ (Race (raceDefinitionOf d)) w h) as [[w1 h1] [raceResults|err|]];
      [|done..].
    by rewrite Hnone. }
  split_and!; [done | done | | done | done |].
  - unfold boundRunInternal. by rewrite Hload.
  - intros Hrace w h. rewrite Hquiet, Hdef, Hrace. simpl.
    destruct (mw Value (Call (CallSaga (def_saga d))) w h) as [[w1 h1] [v|err|]]; done.
Qed.

End Supervisor.

(** * The builder: errors, new stages, old stages *)

Section Builder.

Context {S Saga Callback : Type}.

Local Abbreviation Invariant := (@Invariant S).
Local Abbreviation RunWhileDefinition := (@RunWhileDefinition S Saga Callback).
Local Abbreviation Cell := (@Cell S Saga Callback).
Local Abbreviation Method := (@Method S Saga Callback).
Local Abbreviation store := (gmap loc Cell).

Implicit Types (σ : store) (this : loc) (d : RunWhileDefinition) (t : string)
  (st : Stage) (m : Method).

Lemma subseteq_preserved σ σ' : σ ⊆ σ' → preserved σ σ'.
Proof.
  intros Hsub. split.
  - intros l c Hl. by eapply lookup_weaken.
  - intros this d Hload. by eapply load_weaken.
Qed.

Lemma tagsOf_withInvariant d t (cl : S → Completion bool) :
  tagsOf (withInvariant d t cl) = (tagsOf d ++ [t])%list.
Proof. unfold tagsOf, withInvariant. simpl. by rewrite fmap_app. Qed.







(** C3. [invariant] throws exactly when the tag is the reserved
    ['@@Saga'] or is the tag of an invariant already in the definition
    (the same string, character for character): the reserved message in the
    first case, the duplicate message in the second, and the two messages
    are never the same text; with any other tag the call returns a stage. *)
Theorem C3_invariant_throws_iff_reserved_or_duplicate σ this d t (cl : S → Completion bool) :
  load σ this = Some d →
  ((∃ σ' e, invariant σ this t cl = Some (σ', Throws e)) ↔
     t = sagaRaceTag ∨ t ∈ tagsOf d) ∧
  (invariant σ this t cl = Some (σ, Throws {| message := reservedMessage t |}) ↔
     t = sagaRaceTag) ∧
  (invariant σ this t cl = Some (σ, Throws {| message := duplicateMessage t |}) ↔
     t ≠ sagaRaceTag ∧ t ∈ tagsOf d) ∧
  ((∃ σ' st, invariant σ this t cl = Some (σ', Return st)) ↔
     t ≠ sagaRaceTag ∧ (t ∉ tagsOf d)) ∧
  (∀ t1 t2, reservedMessage t1 ≠ duplicateMessage t2).
Proof.
  intros Hload.
  destruct (invariant_cases σ this d t cl Hload)
    as [[Heq Hinv] | [(Hne & Hin & Hinv) | (Hne & Hnotin & σ' & new & Hinv & _)]];
    rewrite Hinv; split_and!; try apply messages_differ; split.
  - by left.
  - intros _. by eexists _, _.
  - done.
  - done.
  - intros [= Hm]. by apply messages_differ in Hm.
  - by intros [? _].
  - by intros (? & ? & [=]).
  - by intros [? _].
  - by right.
  - intros _. by eexists _, _.
  - intros [= Hm]. symmetry in Hm. by apply messages_differ in Hm.
  - done.
  - done.
  - done.
  - by intros (? & ? & [=]).
  - by intros [_ ?].
  - by intros (? & ? & [=]).
  - by intros [?|?].
  - by intros [=].
  - done.
  - by intros [=].
  - by intros [_ ?].
  - done.
  - intros _. by eexists _, _.
Qed.

(** C7, as amended.  Two different tags, neither of them ['@@Saga'] and
    neither already in the definition, are added one after the other without
    an error, and the stage reached has both, in that order, after the
    invariants that were there. *)
Theorem C7_two_new_tags_never_fail σ this d t1 t2 (cl1 cl2 : S → Completion bool) :
  load σ this = Some d →
  t1 ≠ t2 →
  t1 ≠ sagaRaceTag →
  t2 ≠ sagaRaceTag →
  t1 ∉ tagsOf d →
  t2 ∉ tagsOf d →
  ∃ σ1 st1 σ2 st2,
    invariant σ this t1 cl1 = Some (σ1, Return st1) ∧
    invariant σ1 (definition st1) t2 cl2 = Some (σ2, Return st2) ∧
    load σ2 (definition st2) = Some (withInvariant (withInvariant d t1 cl1) t2 cl2).
Proof.
  intros Hload Hne Hfree1 Hfree2 Hnew1 Hnew2.
  destruct (invariant_spec σ this d t1 cl1 Hload Hfree1 Hnew1)
    as (σ1 & new1 & Hcall1 & _ & _ & Hload1).
  assert (t2 ∉ tagsOf (withInvariant d t1 cl1)) as Hnew2'.
  { rewrite tagsOf_withInvariant, elem_of_app, list_elem_of_singleton.
    by intros [Hold | Hsame]. }
  destruct (invariant_spec σ1 new1 _ t2 cl2 Hload1 Hfree2 Hnew2')
    as (σ2 & new2 & Hcall2 & _ & _ & Hload2).
  by eexists σ1, _, σ2, _.
Qed.

(** C8. Every construction method returns a stage on a definition object
    that was not in the store before, and leaves every cell of the store,
    hence the configuration of the receiver and of every other stage, as it
    was.  [saga] gives the receiver's configuration with the task
    replaced; a successful [invariant] gives it with the new invariant
    appended to the invariants and nothing else changed; [onViolation]
    gives it with the new callback appended to the callbacks and nothing
    else changed. *)
Theorem C8_methods_return_new_stage_and_keep_old σ this d :
  load σ this = Some d →
  (∀ s : Saga, ∃ σ' new,
     saga σ this s =
       Some (σ', Return {| stageType := RunWhileSagaMonad; definition := new |}) ∧
     σ !! new = None ∧ preserved σ σ' ∧
     load σ' this = Some d ∧
     load σ' new = Some (withSaga d s)) ∧
  (∀ t (cl : S → Completion bool) σ' st,
     invariant σ this t cl = Some (σ', Return st) →
     stageType st = RunWhileInvariantMonad ∧
     σ !! definition st = None ∧ preserved σ σ' ∧
     load σ' this = Some d ∧
     load σ' (definition st) = Some (withInvariant d t cl) ∧
     def_invariants (withInvariant d t cl) =
       (def_invariants d ++ [{| tag := t; clause := cl |}])%list ∧
     def_onViolationCallbacks (withInvariant d t cl) = def_onViolationCallbacks d ∧
     def_saga (withInvariant d t cl) = def_saga d) ∧
  (∀ callback : Callback, ∃ σ' new,
     onViolation σ this callback =
       Some (σ', Return {| stageType := RunWhileOnViolationMonad; definition := new |}) ∧
     σ !! new = None ∧ preserved σ σ' ∧
     load σ' this = Some d ∧
     load σ' new = Some (withCallback d callback) ∧
     def_onViolationCallbacks (withCallback d callback) =
       (def_onViolationCallbacks d ++ [callback])%list ∧
     def_invariants (withCallback d callback) = def_invariants d ∧
     def_saga (withCallback d callback) = def_saga d).
Proof.
  intros Hload. split_and!.
  - intros s.
    destruct (saga_spec σ this d s Hload) as (σ' & new & Hcall & Hsub & Hfresh & Hnew).
    exists σ', new. split_and!; try done.
    + by apply subseteq_preserved.
    + by eapply load_weaken.
  - intros t cl σ' st Hcall.
    destruct (invariant_cases σ this d t cl Hload)
      as [[_ Hinv] | [(_ & _ & Hinv) | (_ & _ & σ1 & new & Hinv & Hsub & Hfresh & Hnew)]];
      rewrite Hinv in Hcall; try done.
    injection Hcall as <- <-. simpl. split_and!; try done.
    + by apply subseteq_preserved.
    + by eapply load_weaken.
  - intros callback.
    destruct (onViolation_spec σ this d callback Hload)
      as (σ' & new & Hcall & Hsub & Hfresh & Hnew).
    exists σ', new. split_and!; try done.
    + by apply subseteq_preserved.
    + by eapply load_weaken.
Qed.


(** C10. An [invariant] call that throws has changed nothing: the store
    it leaves is the store it found, so the receiver and every other stage
    have the configuration they had, and every later method call on any of
    them does, and is observed as, what it would without the failed call. *)
Theorem C10_failed_invariant_changes_nothing σ this t (cl : S → Completion bool) σ' e :
  invariant σ this t cl = Some (σ', Throws e) →
  σ' = σ ∧
  (∀ l, load σ' l = load σ l) ∧
  (∀ st m, invoke σ' st m = invoke σ st m) ∧
  (∀ st m, observe σ' st m = observe σ st m).
Proof.
  intros Hcall. assert (σ' = σ) as ->; [|done].
  revert Hcall. unfold invariant.
  destruct (String.eqb t sagaRaceTag); [congruence|].
  destruct (σ !! this) as [[il cbl s| |]|]; try done.
  destruct (σ !! il) as [[| invariants |]|]; try done.
  destruct (List.existsb _ _); [congruence|done].
Qed.

End Builder.

(** * The properties on the examples *)

Section Examples.

Import Example.

Local Abbreviation own raceKey := (objectLiteral {[ raceKey ]}).

(** C2.  The claim is that a race the task alone completes ends the
    supervisor without violation handling whatever the tags are.  Here the
    builder accepts the tag ["constructor"], the race result is the object
    [{ '@@Saga': .. }] whose only key is the task's, the clause holds on
    the state, and the generator reads the state and calls the callback
    with an empty array: ['constructor' in raceResults] is true of any
    object that inherits from [Object.prototype]. *)
Theorem C2_inherited_tag_is_handled_as_violation :
  completionOf inheritedBuilt = Some (Return (Some inherited)) ∧
  ownKeys (own sagaRaceTag) = {[ sagaRaceTag ]} ∧
  clause {| tag := "constructor"; clause := λ _ : Z, Return true |} 0%Z = Return true ∧
  hasProperty "constructor" (own sagaRaceTag) = true ∧
  drive (scripted (own sagaRaceTag) 0%Z) (runInternal inherited) 0 ∅ =
    ([ EvRace (raceDefinitionOf inherited) (Next (own sagaRaceTag));
       EvSelect (Next 0%Z);
       EvCall (CallCallback "H" 0%Z 1%positive) (Some []) (Next undefined) (Some []) ],
     Completed undefined, (3, {[ 1%positive := [] ]})).
Proof. split_and!; by vm_compute. Qed.

(** Where no tag names an inherited property, the same race result ends
    the supervisor at once. *)
Lemma sentinel_only_quiet_guarded :
  drive (scripted (own sagaRaceTag) 0%Z) (runInternal guarded) 0 ∅ =
    ([EvRace (raceDefinitionOf guarded) (Next (own sagaRaceTag))],
     Completed undefined, (1, ∅)).
Proof. by vm_compute. Qed.

(** A race result without a prototype shows nothing but its own keys. *)
Lemma sentinel_only_quiet_without_prototype :
  drive (scripted (nullProtoObject {[ sagaRaceTag ]}) 0%Z) (runInternal inherited) 0 ∅ =
    ([EvRace (raceDefinitionOf inherited) (Next (nullProtoObject {[ sagaRaceTag ]}))],
     Completed undefined, (1, ∅)).
Proof. by vm_compute. Qed.

(** Tags are compared as they are written: ["A"] is not ["a"]. *)
Lemma invariant_compares_case :
  completionOf lowerThenUpper =
    Some (Return (Some
      {| def_invariants := [ {| tag := "a"; clause := λ _, Return true |};
                             {| tag := "A"; clause := λ _, Return false |} ];
         def_onViolationCallbacks := [];
         def_saga := userSaga "T" |})).
Proof. by vm_compute. Qed.

(** C7, as stated, fails: ['@@Saga'] and ["a"] are different tags and the
    first call throws; ["a"] and ["b"] are different tags and, on a
    definition that has ["b"], the second call throws. *)
Lemma C7_distinct_tags_can_fail :
  ("@@Saga" ≠ "a" ∧
   completionOf reservedFirst =
     Some (Throws {| message :=
             "@@Saga is reserved. Please choose another invariant tag." |})) ∧
  ("a" ≠ "b" ∧
   completionOf takenSecond = Some (Throws {| message := "b is a" |})).
Proof. split_and!; by vm_compute. Qed.

(** C1, as stated, fails: what is reported to a callback is the array, and
    the array is what the callbacks before it left.  On [banded] the
    watcher of ["C"] wins the race and the state read is 12, where the
    clauses of ["B"] and ["C"] are false; the first callback does
    [violations.push("X")], and the second one is reported ["B"], ["C"] and
    ["X"], the last of which is the tag of no invariant. *)
Lemma C1_reported_violations_can_be_altered :
  let mw := Scenario.meddling (own "C") 12%Z "H1" in
  tag <$> filter (λ j : @Invariant Z, clause j 12%Z = Return false)
                 (def_invariants banded) = ["B"; "C"] ∧
  ("X" ∉ tagsOf banded) ∧
  (drive mw (runInternal banded) 0 ∅).1.1 =
    [ EvRace (raceDefinitionOf banded) (Next (own "C"));
      EvSelect (Next 12%Z);
      EvCall (CallCallback "H1" 12%Z 1%positive)
             (Some ["B"; "C"]) (Next undefined) (Some ["B"; "C"; "X"]);
      EvCall (CallCallback "H2" 12%Z 1%positive)
             (Some ["B"; "C"; "X"]) (Next undefined) (Some ["B"; "C"; "X"]) ].
Proof.
  intros mw. split_and!; [by vm_compute | | by vm_compute].
  intros Hin. vm_compute in Hin. by repeat (inversion_clear Hin as [|? ? ? Hin']; rename Hin' into Hin).
Qed.

(** C4, as stated, fails: on [watched] the watcher of ["nonNegative"] wins
    the race and the state read is 3, where the clause holds again; the
    first callback finds the array empty and does [violations.push("X")];
    the second callback does not receive the empty list. *)
Lemma C4_later_callback_not_handed_empty_list :
  let mw := Scenario.meddling (own "nonNegative") 3%Z "H1" in
  violationsOf watched 3%Z = Return [] ∧
  (drive mw (runInternal watched) 0 ∅).1.1 =
    [ EvRace (raceDefinitionOf watched) (Next (own "nonNegative"));
      EvSelect (Next 3%Z);
      EvCall (CallCallback "H1" 3%Z 1%positive) (Some []) (Next undefined) (Some ["X"]);
      EvCall (CallCallback "H2" 3%Z 1%positive) (Some ["X"]) (Next undefined) (Some ["X"]) ].
Proof. intros mw. split; by vm_compute. Qed.

(** C5, as stated, fails: on [watched] with the state -1 both callbacks are
    called once and in order, with the same state and the same array, but
    they do not receive the same sequence of tags: the first finds
    ["nonNegative"], the second finds ["nonNegative"] and ["X"], which the
    first one pushed. *)
Lemma C5_callbacks_can_receive_different_sequences :
  let mw := Scenario.meddling (own "nonNegative") (-1)%Z "H1" in
  ∃ first second,
    (drive mw (runInternal watched) 0 ∅).1.1 =
      [ EvRace (raceDefinitionOf watched) (Next (own "nonNegative"));
        EvSelect (Next (-1)%Z);
        first; second ] ∧
    isCallOf (-1)%Z 1%positive first "H1" ∧
    isCallOf (-1)%Z 1%positive second "H2" ∧
    receivedBy first = Some ["nonNegative"] ∧
    receivedBy second = Some ["nonNegative"; "X"] ∧
    receivedBy first ≠ receivedBy second.
Proof.
  intros mw.
  exists (EvCall (CallCallback "H1" (-1)%Z 1%positive)
                 (Some ["nonNegative"]) (Next undefined) (Some ["nonNegative"; "X"])),
         (EvCall (CallCallback "H2" (-1)%Z 1%positive)
                 (Some ["nonNegative"; "X"]) (Next undefined) (Some ["nonNegative"; "X"])).
  split_and!; [by vm_compute | by do 3 eexists.. | done | done | done].
Qed.

(** [firstBranchWins] meets the contract of the race on one branch. *)
Lemma raceOfOne_firstBranchWins (currentState : Z) (result : Value) :
  raceOfOne (firstBranchWins (Saga := string) (Callback := string) currentState result).
Proof. intros key c w h. simpl. by rewrite map_to_list_singleton. Qed.

(** C6, as stated, fails: on the stage [runWhile().saga(T)], whose
    definition has no invariants, with a task that returns 7, the task
    called alone returns 7 and the generator [run()] calls returns
    [undefined], under a race primitive that treats a single branch as a
    call of that branch. *)
Lemma C6_result_of_task_is_dropped :
  let mw := firstBranchWins (Saga := string) (Callback := string) 0%Z (number 7) in
  let σ := <[4%positive := DefinitionObject 1 2 (userSaga "T")]> started.1 in
  let st := {| stageType := RunWhileSagaMonad; definition := 4 |} in
  let d := {| def_invariants := []; def_onViolationCallbacks := [];
              def_saga := userSaga "T" |} in
  afterSaga = Some (σ, Return st) ∧
  load σ (definition st) = Some d ∧
  invoke σ st call_run = Some (σ, Return (AnEffect (CallRunInternal 4))) ∧
  boundRunInternal σ 4 = Some (runInternal d) ∧
  raceOfOne mw ∧
  (drive mw (taskAlone (def_saga d)) [] ∅).1.2 = Completed (number 7) ∧
  (drive mw (runInternal d) [] ∅).1.2 = Completed undefined.
Proof.
  intros mw σ st d.
  split_and!; try by vm_compute.
  apply raceOfOne_firstBranchWins.
Qed.

(** C1 on [banded]: the watcher of ["C"] wins the race; by the time the
    state is read it is 12, where ["B"] fails too. *)
Lemma C1_witness :
  let mw := scripted (own "C") 12%Z in
  let C := {| tag := "C"; clause := λ count, Return (count <? 5)%Z |} in
  mw _ (Race (raceDefinitionOf banded)) 0 ∅ = (1, ∅, Next (own "C")) ∧
  C ∈ def_invariants banded ∧
  tag C ∈ ownKeys (own "C") ∧
  mw _ Select 1 ∅ = (2, ∅, Next 12%Z) ∧
  Forall (λ j : @Invariant Z, ∃ holds, clause j 12%Z = Return holds)
         (def_invariants banded) ∧
  ∃ notified,
    (drive mw (runInternal banded) 0 ∅).1.1 =
      EvRace (raceDefinitionOf banded) (Next (own "C"))
        :: EvSelect (Next 12%Z) :: notified ∧
    List.length (List.filter isSelect (drive mw (runInternal banded) 0 ∅).1.1) = 1 ∧
    tag <$> filter (λ j : @Invariant Z, clause j 12%Z = Return false)
                   (def_invariants banded) `sublist_of` tagsOf banded ∧
    (∅ : arrays) !! fresh (dom (∅ : arrays)) = None ∧
    Forall2 (isCallOf 12%Z (fresh (dom (∅ : arrays)))) notified
            (take (List.length notified) (def_onViolationCallbacks banded)) ∧
    (notified = [] → def_onViolationCallbacks banded = []) ∧
    (Forall (λ ev : @Event Z string string, answered ev = Completed undefined) notified →
     calledCallbacks notified = def_onViolationCallbacks banded) ∧
    handedOn (Some (tag <$> filter (λ j : @Invariant Z, clause j 12%Z = Return false)
                                   (def_invariants banded))) notified ∧
    (Forall leftAlone notified →
     Forall (λ ev : @Event Z string string,
               receivedBy ev =
                 Some (tag <$> filter (λ j : @Invariant Z, clause j 12%Z = Return false)
                                      (def_invariants banded))) notified).
Proof.
  intros mw C.
  assert (C ∈ def_invariants banded) as Hregistered.
  { do 2 apply list_elem_of_further. apply list_elem_of_here. }
  assert (tag C ∈ ownKeys (own "C")) as Hwon.
  { vm_compute. reflexivity. }
  assert (Forall (λ j : @Invariant Z, ∃ holds, clause j 12%Z = Return holds)
                 (def_invariants banded)) as Hclauses.
  { repeat constructor; eexists; reflexivity. }
  split_and!;
    [reflexivity | exact Hregistered | exact Hwon | reflexivity | exact Hclauses |].
  apply (C1_violations_from_one_snapshot mw banded 0 1 2 ∅ ∅ ∅ (own "C") 12%Z C);
    [reflexivity | exact Hregistered | exact Hwon | reflexivity | exact Hclauses].
Defined.

(** C4 on [watched]: the watcher of ["nonNegative"] wins the race, and the
    state read afterwards is 3. *)
Lemma C4_witness :
  let mw := scripted (own "nonNegative") 3%Z in
  mw _ (Race (raceDefinitionOf watched)) 0 ∅ = (1, ∅, Next (own "nonNegative")) ∧
  nonNegative ∈ def_invariants watched ∧
  tag nonNegative ∈ ownKeys (own "nonNegative") ∧
  mw _ Select 1 ∅ = (2, ∅, Next 3%Z) ∧
  (∀ j, j ∈ def_invariants watched → clause j 3%Z = Return true) ∧
  ∃ notified,
    (drive mw (runInternal watched) 0 ∅).1.1 =
      EvRace (raceDefinitionOf watched) (Next (own "nonNegative"))
        :: EvSelect (Next 3%Z) :: notified ∧
    (∅ : arrays) !! fresh (dom (∅ : arrays)) = None ∧
    Forall2 (isCallOf 3%Z (fresh (dom (∅ : arrays)))) notified
            (take (List.length notified) (def_onViolationCallbacks watched)) ∧
    (notified = [] → def_onViolationCallbacks watched = []) ∧
    handedOn (Some []) notified ∧
    (Forall (λ ev : @Event Z string string, answered ev = Completed undefined) notified →
     calledCallbacks notified = def_onViolationCallbacks watched ∧
     (drive mw (runInternal watched) 0 ∅).1.2 = Completed undefined) ∧
    (Forall leftAlone notified →
     Forall (λ ev : @Event Z string string, receivedBy ev = Some []) notified).
Proof.
  intros mw.
  assert (nonNegative ∈ def_invariants watched) as Hregistered.
  { apply list_elem_of_here. }
  assert (tag nonNegative ∈ ownKeys (own "nonNegative")) as Hwon.
  { vm_compute. reflexivity. }
  assert (∀ j, j ∈ def_invariants watched → clause j 3%Z = Return true) as Hholds.
  { intros j Hj. apply list_elem_of_singleton in Hj. subst j. reflexivity. }
  split_and!;
    [reflexivity | exact Hregistered | exact Hwon | reflexivity | exact Hholds |].
  apply (C4_flapped_back_still_notified mw watched 0 1 2 ∅ ∅ ∅ (own "nonNegative")
           3%Z nonNegative);
    [reflexivity | exact Hregistered | exact Hwon | reflexivity | exact Hholds].
Defined.

(** C5 on [banded]: two callbacks, called in turn. *)
Lemma C5_witness :
  let mw := scripted (own "C") 12%Z in
  let C := {| tag := "C"; clause := λ count, Return (count <? 5)%Z |} in
  mw _ (Race (raceDefinitionOf banded)) 0 ∅ = (1, ∅, Next (own "C")) ∧
  C ∈ def_invariants banded ∧
  hasProperty (tag C) (own "C") = true ∧
  mw _ Select 1 ∅ = (2, ∅, Next 12%Z) ∧
  Forall (λ j : @Invariant Z, ∃ holds, clause j 12%Z = Return holds)
         (def_invariants banded) ∧
  ∃ notified,
    (drive mw (runInternal banded) 0 ∅).1.1 =
      EvRace (raceDefinitionOf banded) (Next (own "C"))
        :: EvSelect (Next 12%Z) :: notified ∧
    (∅ : arrays) !! fresh (dom (∅ : arrays)) = None ∧
    Forall2 (isCallOf 12%Z (fresh (dom (∅ : arrays)))) notified
            (take (List.length notified) (def_onViolationCallbacks banded)) ∧
    (notified = [] → def_onViolationCallbacks banded = []) ∧
    handedOn (Some (tag <$> filter (λ j : @Invariant Z, clause j 12%Z = Return false)
                                   (def_invariants banded))) notified ∧
    (Forall (λ ev : @Event Z string string, answered ev = Completed undefined) notified →
     calledCallbacks notified = def_onViolationCallbacks banded ∧
     (drive mw (runInternal banded) 0 ∅).1.2 = Completed undefined ∧
     (drive mw (runInternal banded) 0 ∅).2 =
       afterCallbacks mw (def_onViolationCallbacks banded) 12%Z (fresh (dom (∅ : arrays)))
         (2, <[fresh (dom (∅ : arrays)) :=
                 tag <$> filter (λ j : @Invariant Z, clause j 12%Z = Return false)
                                (def_invariants banded)]> ∅)) ∧
    (Forall leftAlone notified →
     Forall (λ ev : @Event Z string string,
               receivedBy ev =
                 Some (tag <$> filter (λ j : @Invariant Z, clause j 12%Z = Return false)
                                      (def_invariants banded))) notified).
Proof.
  intros mw C.
  assert (C ∈ def_invariants banded) as Hregistered.
  { do 2 apply list_elem_of_further. apply list_elem_of_here. }
  assert (hasProperty (tag C) (own "C") = true) as Hwon.
  { vm_compute. reflexivity. }
  assert (Forall (λ j : @Invariant Z, ∃ holds, clause j 12%Z = Return holds)
                 (def_invariants banded)) as Hclauses.
  { repeat constructor; eexists; reflexivity. }
  split_and!;
    [reflexivity | exact Hregistered | exact Hwon | reflexivity | exact Hclauses |].
  apply (C5_callbacks_once_in_order mw banded 0 1 2 ∅ ∅ ∅ (own "C") 12%Z C);
    [reflexivity | exact Hregistered | exact Hwon | reflexivity | exact Hclauses].
Defined.

(** C6 on the stage [runWhile().saga(T)], under a middleware that meets the
    contract of the race on one branch and with a task that returns 7. *)
Lemma C6_witness :
  let mw := firstBranchWins (Saga := string) (Callback := string) 0%Z (number 7) in
  let σ := <[4%positive := DefinitionObject 1 2 (userSaga "T")]> started.1 in
  let st := {| stageType := RunWhileSagaMonad; definition := 4 |} in
  let d := {| def_invariants := []; def_onViolationCallbacks := [];
              def_saga := userSaga "T" |} in
  let e := CallRunInternal 4 in
  load σ (definition st) = Some d ∧
  def_invariants d = [] ∧
  invoke σ st call_run = Some (σ, Return (AnEffect e)) ∧
  raceOfOne mw ∧
  boundRunInternal σ (definition st) = Some (runInternal d) ∧
  drive mw (runInternal d) [] ∅ =
    ([EvRace {[ sagaRaceTag := CallSaga (userSaga "T") ]} (Next (own sagaRaceTag))],
     Completed undefined, ([CallSaga (userSaga "T")], ∅)) ∧
  (drive mw (runInternal d) [] ∅).1.2 =
    forgetResult (drive mw (taskAlone (def_saga d)) [] ∅).1.2 ∧
  (drive mw (runInternal d) [] ∅).2 = (drive mw (taskAlone (def_saga d)) [] ∅).2.
Proof.
  intros mw σ st d e.
  assert (load σ (definition st) = Some d) as Hload by reflexivity.
  assert (invoke σ st call_run = Some (σ, Return (AnEffect e))) as Hcall by reflexivity.
  destruct (C6_no_invariants_task_alone mw σ σ st d e Hload eq_refl Hcall)
    as (_ & _ & Hbound & Hbranch & Hquiet & Halone).
  split_and!.
  - exact Hload.
  - reflexivity.
  - exact Hcall.
  - apply raceOfOne_firstBranchWins.
  - exact Hbound.
  - rewrite Hquiet, Hbranch. simpl. rewrite map_to_list_singleton. reflexivity.
  - apply (Halone (raceOfOne_firstBranchWins 0%Z (number 7))).
  - apply (Halone (raceOfOne_firstBranchWins 0%Z (number 7))).
Defined.

(** C3 on the empty definition: ["a"] is accepted, ['@@Saga'] is not. *)
Lemma C3_witness :
  let σ := started.1 in
  let this := definition started.2 in
  load σ this = Some empty ∧
  (∃ σ' st, invariant σ this "a" (λ _, Return true) = Some (σ', Return st)) ∧
  invariant σ this sagaRaceTag (λ _, Return true) =
    Some (σ, Throws {| message := reservedMessage sagaRaceTag |}).
Proof.
  intros σ this.
  assert (load σ this = Some empty) as Hload by reflexivity.
  split_and!; [exact Hload | |].
  - apply (C3_invariant_throws_iff_reserved_or_duplicate σ this empty "a" (λ _, Return true) Hload).
    split; [discriminate | apply not_elem_of_nil].
  - apply (C3_invariant_throws_iff_reserved_or_duplicate σ this empty sagaRaceTag
             (λ _, Return true) Hload).
    reflexivity.
Defined.

(** C7 on the empty definition: ["a"], then ["b"]. *)
Lemma C7_witness :
  let σ := started.1 in
  let this := definition started.2 in
  load σ this = Some empty ∧
  "a" ≠ "b" ∧ "a" ≠ sagaRaceTag ∧ "b" ≠ sagaRaceTag ∧
  ("a" ∉ tagsOf empty) ∧ ("b" ∉ tagsOf empty) ∧
  ∃ σ1 st1 σ2 st2,
    invariant σ this "a" (λ _, Return true) = Some (σ1, Return st1) ∧
    invariant σ1 (definition st1) "b" (λ _, Return false) = Some (σ2, Return st2) ∧
    load σ2 (definition st2) =
      Some (withInvariant (withInvariant empty "a" (λ _, Return true)) "b" (λ _, Return false)).
Proof.
  intros σ this.
  assert (load σ this = Some empty) as Hload by reflexivity.
  split_and!;
    [exact Hload | discriminate | discriminate | discriminate
    | apply not_elem_of_nil | apply not_elem_of_nil |].
  apply (C7_two_new_tags_never_fail σ this empty "a" "b" (λ _, Return true) (λ _, Return false) Hload);
    first [discriminate | apply not_elem_of_nil].
Defined.

(** C8 on the empty definition. *)
Lemma C8_witness :
  let σ := started.1 in
  let this := definition started.2 in
  load σ this = Some empty ∧
  ∃ σ' new,
    onViolation σ this "H" =
      Some (σ', Return {| stageType := RunWhileOnViolationMonad; definition := new |}) ∧
    σ !! new = None ∧
    load σ' this = Some empty ∧
    load σ' new = Some (withCallback empty "H").
Proof.
  intros σ this.
  assert (load σ this = Some empty) as Hload by reflexivity.
  split; [exact Hload|].
  destruct (C8_methods_return_new_stage_and_keep_old σ this empty Hload)
    as (_ & _ & HonViolation).
  destruct (HonViolation "H") as (σ' & new & Hcall & Hfresh & _ & Hold & Hnew & _).
  by exists σ', new.
Defined.


(** C10 on the empty definition: the reserved tag is refused. *)
Lemma C10_witness :
  let σ := started.1 in
  let this := definition started.2 in
  let e := {| message := reservedMessage sagaRaceTag |} in
  invariant σ this sagaRaceTag (λ _ : Z, Return true) = Some (σ, Throws e) ∧
  σ = σ ∧
  (∀ l, load σ l = load σ l) ∧
  (∀ st m, invoke σ st m = invoke σ st m) ∧
  (∀ st m, observe σ st m = observe σ st m).
Proof.
  intros σ this e.
  assert (invariant σ this sagaRaceTag (λ _ : Z, Return true) = Some (σ, Throws e)) as Hcall
    by reflexivity.
  split; [exact Hcall|].
  apply (C10_failed_invariant_changes_nothing σ this sagaRaceTag (λ _, Return true) σ e Hcall).
Defined.

End Examples.

(** * More on the generator: every run, whatever the middleware answers *)

Section EveryRun.

Context {S Saga Callback : Type}.

Local Abbreviation Invariant := (@Invariant S).
Local Abbreviation RunWhileDefinition := (@RunWhileDefinition S Saga Callback).
Local Abbreviation CallEffect := (@CallEffect S Saga Callback).
Local Abbreviation Middleware := (@Middleware S Saga Callback).
Local Abbreviation Event := (@Event S Saga Callback).

Implicit Types (this : RunWhileDefinition) (raceResults : JSObject)
  (currentState : S) (violations : loc) (elements : list string) (i : Invariant).

(** *** The race definition *)

Lemma raceDefinition_fold_dom (l : list Invariant) (m : gmap string CallEffect) :
  dom (foldl (λ raceDefinition i,
                <[tag i := CallObserveWhile (clause i)]> raceDefinition) m l)
    = dom m ∪ list_to_set (tag <$> l).
Proof.
  revert m. induction l as [|i l IH]; intros m; simpl.
  - by rewrite (right_id_L ∅ (∪)).
  - rewrite IH, dom_insert_L.
    by rewrite (comm_L (∪) {[ tag i ]} (dom m)), (assoc_L (∪)).
Qed.

Lemma raceDefinition_fold_other (l : list Invariant) (m : gmap string CallEffect) key :
  key ∉ tag <$> l →
  foldl (λ raceDefinition i,
           <[tag i := CallObserveWhile (clause i)]> raceDefinition) m l !! key
    = m !! key.
Proof.
  revert m. induction l as [|i l IH]; intros m Hkey; simpl; [done|].
  rewrite fmap_cons, not_elem_of_cons in Hkey. destruct Hkey as [Hne Hkey].
  rewrite IH by done. by rewrite lookup_insert_ne.
Qed.

Lemma raceDefinition_fold_own (l : list Invariant) (m : gmap string CallEffect) i :
  NoDup (tag <$> l) →
  i ∈ l →
  foldl (λ raceDefinition i,
           <[tag i := CallObserveWhile (clause i)]> raceDefinition) m l !! tag i
    = Some (CallObserveWhile (clause i)).
Proof.
  revert m. induction l as [|j l IH]; intros m Hnodup Hi; [by inversion Hi|].
  rewrite fmap_cons, NoDup_cons in Hnodup. destruct Hnodup as [Hj Hnodup].
  simpl. apply elem_of_cons in Hi as [->|Hi].
  - rewrite raceDefinition_fold_other by done. apply lookup_insert_eq.
  - by apply IH.
Qed.

Lemma raceDefinitionOf_dom this :
  dom (raceDefinitionOf this) = {[ sagaRaceTag ]} ∪ list_to_set (tagsOf this).
Proof.
  unfold raceDefinitionOf. rewrite raceDefinition_fold_dom, dom_singleton_L. done.
Qed.

(** The task's branch survives when no invariant is tagged ['@@Saga']. *)
Lemma raceDefinitionOf_task this :
  sagaRaceTag ∉ tagsOf this →
  raceDefinitionOf this !! sagaRaceTag = Some (CallSaga (def_saga this)).
Proof.
  intros Hreserved. unfold raceDefinitionOf.
  rewrite raceDefinition_fold_other by done. apply lookup_singleton_eq.
Qed.

(** One branch per invariant, and the task's. *)
Lemma raceDefinitionOf_size this :
  wellTagged this →
  size (raceDefinitionOf this) = Datatypes.S (List.length (def_invariants this)).
Proof.
  intros [Hnodup Hreserved].
  rewrite <- size_dom, raceDefinitionOf_dom, size_union, size_singleton.
  - rewrite size_list_to_set by done. unfold tagsOf. by rewrite length_fmap.
  - intros key Hsentinel%elem_of_singleton Htag%elem_of_list_to_set.
    by rewrite Hsentinel in Htag.
Qed.

(** X3. On a definition whose tags are unique and not ['@@Saga'], the race
    definition keeps every branch: the task under ['@@Saga'], the watcher of
    each invariant's own clause under its tag, and nothing else; one branch
    more than there are invariants. *)
Theorem raceDefinition_keeps_every_branch this :
  wellTagged this →
  raceDefinitionOf this !! sagaRaceTag = Some (CallSaga (def_saga this)) ∧
  (∀ i, i ∈ def_invariants this →
     raceDefinitionOf this !! tag i = Some (CallObserveWhile (clause i))) ∧
  (∀ key, is_Some (raceDefinitionOf this !! key) ↔
          key = sagaRaceTag ∨ key ∈ tagsOf this) ∧
  size (raceDefinitionOf this) = Datatypes.S (List.length (def_invariants this)).
Proof.
  intros Htags. pose proof Htags as [Hnodup Hreserved]. split_and!.
  - by apply raceDefinitionOf_task.
  - intros i Hi. unfold raceDefinitionOf. by apply raceDefinition_fold_own.
  - intros key.
    by rewrite <- elem_of_dom, raceDefinitionOf_dom, elem_of_union,
      elem_of_singleton, elem_of_list_to_set.
  - by apply raceDefinitionOf_size.
Qed.

(** *** The violations, when tags are unique *)

Lemma tag_determines_invariant (l : list Invariant) i j :
  NoDup (tag <$> l) → i ∈ l → j ∈ l → tag i = tag j → i = j.
Proof.
  induction l as [|k l IH]; intros Hnodup Hi Hj Heq; [by inversion Hi|].
  rewrite fmap_cons, NoDup_cons in Hnodup. destruct Hnodup as [Hk Hnodup].
  apply elem_of_cons in Hi as [->|Hi]; apply elem_of_cons in Hj as [->|Hj].
  - done.
  - destruct Hk. rewrite Heq. by apply list_elem_of_fmap_2.
  - destruct Hk. rewrite <- Heq. by apply list_elem_of_fmap_2.
  - by apply IH.
Qed.

(** X4. When the tags are unique: the violations are computed whenever no
    clause throws, and the list computed names no tag twice, and the tag of
    a registered invariant is in it exactly when that invariant's own clause
    is false on the state. *)
Theorem violations_name_each_broken_invariant_once this currentState :
  NoDup (tagsOf this) →
  (Forall (λ j : Invariant, ∃ holds, clause j currentState = Return holds)
          (def_invariants this) →
   ∃ elements, violationsOf this currentState = Return elements) ∧
  ∀ elements, violationsOf this currentState = Return elements →
    NoDup elements ∧
    ∀ i, i ∈ def_invariants this →
      (tag i ∈ elements ↔ clause i currentState = Return false).
Proof.
  intros Hnodup. split.
  - intros Hall. eexists. by apply violationsOf_evaluates.
  - intros elements Hcomputed. split.
    + destruct (violationsOf_Return _ _ _ Hcomputed) as [_ ->].
      eapply sublist_NoDup; [done | apply broken_tags_sublist].
    + intros i Hi. rewrite (elem_of_violationsOf _ _ _ _ Hcomputed). split.
      * intros (j & Hj & Htag & Hfalse).
        by rewrite <- (tag_determines_invariant _ j i Hnodup Hj Hi Htag).
      * intros Hfalse. by exists i.
Qed.

(** *** Every run *)

(** Calls of callbacks, first ones first: no race among them, no more of
    them than there are callbacks. *)
Lemma calls_no_race (events : list Event) (callbacks : list Callback)
    currentState violations :
  Forall2 (isCallOf currentState violations) events callbacks →
  ∀ rd a, EvRace rd a ∉ events.
Proof.
  induction 1 as [|ev callback events callbacks (received & answer & after & ->) _ IH];
    intros rd a Hin.
  - by inversion Hin.
  - apply elem_of_cons in Hin as [Heq|Hin]; [done | by eapply IH].
Qed.

Lemma calls_of_first_callbacks (events : list Event) (callbacks : list Callback)
    currentState violations :
  Forall2 (isCallOf currentState violations) events
          (take (List.length events) callbacks) →
  calledCallbacks events `prefix_of` callbacks ∧
  (List.length events ≤ List.length callbacks)%nat.
Proof.
  intros Hcalls. split.
  - destruct (calls_no_select _ _ _ _ Hcalls) as [_ ->]. apply prefix_take.
  - apply Forall2_length in Hcalls. rewrite length_take in Hcalls. lia.
Qed.

(** X5. In every run, whatever the middleware answers: the race is the
    first effect and the only race; the state is read at most once; the
    callbacks called are the first few of the registered ones, in the order
    of registration; nothing else is ever called, and calls are made only
    after the state has been read and the violations computed from it; every
    call passes that state and one and the same array, in which the first
    callback finds the violations computed and each next one what the one
    before it left; the run takes at most two effects more than there are
    callbacks. *)
Theorem every_run_races_first_then_notifies_in_order {W} (mw : Middleware W) this
    (w : W) (h : arrays) :
  (∃ answer rest,
     (drive mw (runInternal this) w h).1.1 = EvRace (raceDefinitionOf this) answer :: rest ∧
     ∀ rd a, EvRace rd a ∉ rest) ∧
  (List.length (List.filter isSelect (drive mw (runInternal this) w h).1.1) ≤ 1)%nat ∧
  calledCallbacks (drive mw (runInternal this) w h).1.1
    `prefix_of` def_onViolationCallbacks this ∧
  callsAreOf this (drive mw (runInternal this) w h).1.1 ∧
  (List.length (drive mw (runInternal this) w h).1.1
     ≤ 2 + List.length (def_onViolationCallbacks this))%nat.
Proof.
  destruct (drive_runInternal_shapes mw this w h)
    as [(answer & Hrun & _)
       | [(raceResults & answer & _ & Hnot & Hrun)
         | [(raceResults & currentState & e & _ & _ & Hrun)
           | (raceResults & currentState & elements & w2 & h2 & _ & Hcomputed & _ & Hrun)]]];
    rewrite Hrun; clear Hrun; simpl.
  - split_and!.
    + exists answer, []. split; [done|]. intros rd a Hin. by inversion Hin.
    + lia.
    + apply prefix_nil.
    + left. intros c received a after Hin. apply list_elem_of_singleton in Hin. done.
    + lia.
  - split_and!.
    + exists (Next raceResults), [EvSelect answer]. split; [done|].
      intros rd a Hin. apply list_elem_of_singleton in Hin. done.
    + lia.
    + apply prefix_nil.
    + left. intros c received a after Hin. apply elem_of_cons in Hin as [Hin|Hin]; [done|].
      apply list_elem_of_singleton in Hin. done.
    + lia.
  - split_and!.
    + exists (Next raceResults), [EvSelect (Next currentState)]. split; [done|].
      intros rd a Hin. apply list_elem_of_singleton in Hin. done.
    + lia.
    + apply prefix_nil.
    + left. intros c received a after Hin. apply elem_of_cons in Hin as [Hin|Hin]; [done|].
      apply list_elem_of_singleton in Hin. done.
    + lia.
  - pose proof (loop_calls mw (def_onViolationCallbacks this) currentState
                  (fresh (dom h2)) w2 (<[fresh (dom h2) := elements]> h2)) as Hcalls.
    pose proof (loop_handedOn mw (def_onViolationCallbacks this) currentState
                  (fresh (dom h2)) w2 (<[fresh (dom h2) := elements]> h2)) as Hhanded.
    rewrite lookup_insert_eq in Hhanded.
    destruct (calls_no_select _ _ _ _ Hcalls) as [Hnoread _].
    pose proof (calls_no_race _ _ _ _ Hcalls) as Hnorace.
    destruct (calls_of_first_callbacks _ _ _ _ Hcalls) as [Hprefix Hlen].
    split_and!.
    + eexists _, _. split; [done|].
      intros rd a [Heq|Hin]%elem_of_cons; [done | by eapply Hnorace].
    + rewrite Hnoread. simpl. lia.
    + done.
    + right. by eexists currentState, elements, (fresh (dom h2)), [_], _.
    + lia.
Qed.

(** X6. Every run has a last effect, and every effect before the last
    completed.  The run ends as its last effect was answered: the generator
    completes when all its effects do, fails with the error the last effect
    failed with, is cancelled when the last effect was; or else the last
    effect is the reading of the state, and the generator fails with the
    error a clause threw on that state. *)
Theorem every_run_ends_as_last_answered {W} (mw : Middleware W) this
    (w : W) (h : arrays) :
  ∃ init lastEv,
    (drive mw (runInternal this) w h).1.1 = (init ++ [lastEv])%list ∧
    Forall (λ ev : Event, answered ev = Completed undefined) init ∧
    ((drive mw (runInternal this) w h).1.2 = answered lastEv ∨
     ∃ currentState (e : Error) (j : Invariant),
       lastEv = EvSelect (Next currentState) ∧
       violationsOf this currentState = Throws e ∧
       j ∈ def_invariants this ∧
       clause j currentState = Throws e ∧
       (drive mw (runInternal this) w h).1.2 = Failed e).
Proof.
  destruct (drive_runInternal_shapes mw this w h)
    as [(answer & Hrun & _)
       | [(raceResults & answer & _ & Hnot & Hrun)
         | [(raceResults & currentState & e & _ & Hthrows & Hrun)
           | (raceResults & currentState & elements & w2 & h2 & _ & _ & _ & Hrun)]]];
    rewrite Hrun; clear Hrun; simpl.
  - exists [], (EvRace (raceDefinitionOf this) answer). split_and!; [done.. | by left].
  - exists [EvRace (raceDefinitionOf this) (Next raceResults)], (EvSelect answer).
    split_and!; [done | by repeat constructor | by left].
  - exists [EvRace (raceDefinitionOf this) (Next raceResults)],
      (EvSelect (Next currentState)).
    split_and!; [done | by repeat constructor |].
    right. destruct (violationsOf_Throws _ _ _ Hthrows) as (j & Hj & Hclause).
    by exists currentState, e, j.
  - pose proof (loop_ends mw (def_onViolationCallbacks this) currentState
                  (fresh (dom h2)) w2 (<[fresh (dom h2) := elements]> h2)) as Hloop.
    simpl in Hloop.
    destruct (drive mw (forEachCallback _ _ _) w2 _) as [[events outcome] final].
    simpl in *.
    destruct Hloop as [(Hall & _ & -> & _) | (init & lastEv & -> & Hinit & _ & ->)].
    + destruct events as [|ev events _] using rev_ind.
      * exists [EvRace (raceDefinitionOf this) (Next raceResults)],
          (EvSelect (Next currentState)).
        split_and!; [done | by repeat constructor | by left].
      * apply Forall_app in Hall as [Hinit Hlast]. rewrite Forall_singleton in Hlast.
        exists (EvRace (raceDefinitionOf this) (Next raceResults)
                  :: EvSelect (Next currentState) :: events), ev.
        split_and!; [done | by repeat constructor | left; by rewrite Hlast].
    + exists (EvRace (raceDefinitionOf this) (Next raceResults)
                :: EvSelect (Next currentState) :: init), lastEv.
      split_and!; [done | by repeat constructor | by left].
Qed.


(** The filter stops at the first clause that throws. *)
Lemma filterBroken_first_throw (before after : list Invariant) (j : Invariant)
    currentState (e : Error) :
  Forall (λ k : Invariant, ∃ holds, clause k currentState = Return holds) before →
  clause j currentState = Throws e →
  filterBroken (before ++ j :: after) currentState = Throws e.
Proof.
  intros Hbefore Hj. induction Hbefore as [|k before [holds Hk] _ IH]; simpl.
  - by rewrite Hj.
  - by rewrite Hk, IH.
Qed.

(** X13. On the violation path, a clause that throws on the state read,
    the clauses of the invariants registered before it having returned,
    ends the run: the race and the reading of the state are the only
    effects, no callback is called, no array is created, and the generator
    fails with the error the clause threw. *)
Theorem throwing_clause_ends_the_run {W} (mw : Middleware W) this
    (w0 w1 w2 : W) (h0 h1 h2 : arrays) raceResults currentState i
    (before after : list Invariant) (j : Invariant) (e : Error) :
  mw _ (Race (raceDefinitionOf this)) w0 h0 = (w1, h1, Next raceResults) →
  i ∈ def_invariants this →
  hasProperty (tag i) raceResults = true →
  mw _ Select w1 h1 = (w2, h2, Next currentState) →
  def_invariants this = (before ++ j :: after)%list →
  Forall (λ k : Invariant, ∃ holds, clause k currentState = Return holds) before →
  clause j currentState = Throws e →
  violationsOf this currentState = Throws e ∧
  drive mw (runInternal this) w0 h0 =
    ([EvRace (raceDefinitionOf this) (Next raceResults); EvSelect (Next currentState)],
     Failed e, (w2, h2)).
Proof.
  intros Hrace Hi Hprop Hselect Hinvariants Hbefore Hj.
  assert (violationsOf this currentState = Throws e) as Hthrows.
  { unfold violationsOf. by rewrite Hinvariants, (filterBroken_first_throw _ _ _ _ e). }
  split; [done|].
  assert (List.existsb (λ i, hasProperty (tag i) raceResults) (def_invariants this) = true)
    as Hsome.
  { apply existsb_exists. exists i. by rewrite <- list_elem_of_In. }
  rewrite drive_runInternal_race, Hrace, Hsome. simpl.
  by rewrite Hselect, Hthrows.
Qed.

(** X8. With no tag ['@@Saga'], a race result whose keys are keys of the
    race definition and which shows no tag through its prototype: the state
    is read exactly when a key other than ['@@Saga'] is in the result. *)
Theorem state_read_iff_other_key_completed {W} (mw : Middleware W) this
    (w0 w1 : W) (h0 h1 : arrays) raceResults :
  sagaRaceTag ∉ tagsOf this →
  mw _ (Race (raceDefinitionOf this)) w0 h0 = (w1, h1, Next raceResults) →
  ownKeys raceResults ⊆ dom (raceDefinitionOf this) →
  (∀ t, t ∈ tagsOf this → t ∉ protoKeys raceResults) →
  (∃ key, key ∈ ownKeys raceResults ∧ key ≠ sagaRaceTag) ↔
  (∃ answer, EvSelect answer ∈ (drive mw (runInternal this) w0 h0).1.1).
Proof.
  intros Hreserved Hrace Hkeys Hproto. rewrite raceDefinitionOf_dom in Hkeys.
  rewrite drive_runInternal_race, Hrace.
  destruct (List.existsb _ _) eqn:Htaken.
  - simpl. destruct (mw _ Select w1 h1) as [[w2 h2] answer].
    destruct (drive mw _ w2 h2) as [[events outcome] final]. simpl. split.
    + intros _. exists answer. apply list_elem_of_further, list_elem_of_here.
    + intros _. apply existsb_exists in Htaken as (i & Hi & Hprop).
      apply list_elem_of_In in Hi.
      assert (tag i ∈ tagsOf this) as Htag by by apply list_elem_of_fmap_2.
      exists (tag i). split.
      * unfold hasProperty in Hprop. apply orb_true_iff in Hprop as [Hown|Hinh].
        -- by apply bool_decide_eq_true_1 in Hown.
        -- apply bool_decide_eq_true_1 in Hinh. by destruct (Hproto (tag i)).
      * intros Heq. by rewrite Heq in Htag.
  - simpl. split.
    + intros (key & Hkey & Hne). exfalso.
      assert (key ∈ tagsOf this) as Htag.
      { apply Hkeys in Hkey.
        apply elem_of_union in Hkey as [Hsentinel%elem_of_singleton|Htag]; [done|].
        by apply elem_of_list_to_set in Htag. }
      apply list_elem_of_fmap in Htag as (i & -> & Hi).
      apply not_true_iff_false in Htaken. apply Htaken.
      apply (some_tag_in_raceResults this raceResults i Hi Hkey).
    + intros (answer & Hin). apply list_elem_of_singleton in Hin. done.
Qed.

End EveryRun.

(** * More on the builder: what every stage a caller holds is like *)

Section EveryStage.

Context {S Saga Callback : Type}.

Local Abbreviation Invariant := (@Invariant S).
Local Abbreviation RunWhileDefinition := (@RunWhileDefinition S Saga Callback).
Local Abbreviation Cell := (@Cell S Saga Callback).
Local Abbreviation Method := (@Method S Saga Callback).
Local Abbreviation store := (gmap loc Cell).

Implicit Types (σ : store) (this : loc) (d : RunWhileDefinition) (t : string)
  (st : Stage) (m : Method).

(** [runWhile] leaves a store that extends the one it found and in which
    its stage loads as the empty definition. *)
Lemma runWhile_load σ :
  σ ⊆ (runWhile σ).1 ∧
  stageType (runWhile σ).2 = RunWhileMonad ∧
  load (runWhile σ).1 (definition (runWhile σ).2) =
    Some {| def_invariants := []; def_onViolationCallbacks := [];
            def_saga := nothing |}.
Proof.
  unfold runWhile, alloc. simpl.
  set (σ1 := <[fresh (dom σ) := InvariantArray []]> σ).
  set (σ2 := <[fresh (dom σ1) := CallbackArray []]> σ1).
  assert (σ ⊆ σ1) as Hsub1 by apply insert_subseteq, fresh_None.
  assert (σ1 ⊆ σ2) as Hsub2 by apply insert_subseteq, fresh_None.
  assert (σ2 ⊆ <[fresh (dom σ2) := DefinitionObject (fresh (dom σ)) (fresh (dom σ1)) nothing]> σ2)
    as Hsub3 by apply insert_subseteq, fresh_None.
  split_and!.
  - by do 2 (etransitivity; [|done]).
  - done.
  - unfold load. rewrite lookup_insert_eq.
    assert (σ1 !! fresh (dom σ) = Some (InvariantArray [])) as Hil
      by apply lookup_insert_eq.
    assert (σ2 !! fresh (dom σ1) = Some (CallbackArray [])) as Hcl
      by apply lookup_insert_eq.
    rewrite (lookup_weaken _ _ _ _ (lookup_weaken _ _ _ _ Hil Hsub2) Hsub3).
    by rewrite (lookup_weaken _ _ _ _ Hcl Hsub3).
Qed.

(** X1. [runWhile()] puts a definition object and its two arrays where the
    store had nothing, changes no cell that was there, and returns the stage
    with the one method [saga], on the empty definition with the placeholder
    task. *)
Theorem runWhile_starts_empty_and_apart σ :
  preserved σ (runWhile σ).1 ∧
  stageType (runWhile σ).2 = RunWhileMonad ∧
  load (runWhile σ).1 (definition (runWhile σ).2) =
    Some {| def_invariants := []; def_onViolationCallbacks := [];
            def_saga := nothing |} ∧
  ∃ il cl,
    (runWhile σ).1 !! definition (runWhile σ).2 = Some (DefinitionObject il cl nothing) ∧
    σ !! definition (runWhile σ).2 = None ∧
    σ !! il = None ∧ σ !! cl = None ∧ il ≠ cl.
Proof.
  destruct (runWhile_load σ) as (Hsub & Hty & Hload).
  split_and!; [by apply subseteq_preserved | done | done |].
  clear Hsub Hty Hload. unfold runWhile, alloc. simpl.
  set (il := fresh (dom σ)).
  set (σ1 := <[il := InvariantArray []]> σ).
  set (cl := fresh (dom σ1)).
  set (σ2 := <[cl := CallbackArray []]> σ1).
  set (this := fresh (dom σ2)).
  assert (σ !! il = None) as Hil by apply fresh_None.
  assert (σ1 !! cl = None) as Hcl by apply fresh_None.
  assert (σ2 !! this = None) as Hthis by apply fresh_None.
  assert (σ ⊆ σ1) as Hsub1 by by apply insert_subseteq.
  assert (σ1 ⊆ σ2) as Hsub2 by by apply insert_subseteq.
  exists il, cl. split_and!.
  - apply lookup_insert_eq.
  - eapply lookup_weaken_None; [done | by etransitivity].
  - done.
  - by eapply lookup_weaken_None.
  - intros Heq. rewrite <- Heq in Hcl. unfold σ1 in Hcl.
    by rewrite lookup_insert_eq in Hcl.
Qed.

Lemma wellTagged_withInvariant d t (cl : S → Completion bool) :
  wellTagged d → t ≠ sagaRaceTag → t ∉ tagsOf d → wellTagged (withInvariant d t cl).
Proof.
  intros [Hnodup Hreserved] Hne Hnew. unfold wellTagged.
  rewrite tagsOf_withInvariant. split.
  - apply NoDup_app. split_and!; [done | | apply NoDup_singleton].
    intros x Hx Hx'%list_elem_of_singleton. by subst x.
  - rewrite elem_of_app, list_elem_of_singleton. intros [Hin|Heq]; [done|].
    by apply Hne.
Qed.

(** What a method call that returned a stage has made of the receiver. *)
Lemma invoke_stage_expected σ st d m σ' (st' : Stage) :
  load σ (definition st) = Some d →
  invoke σ st m = Some (σ', Return (AStage st')) →
  expected (stageType st) d m =
    Some (Return (SeesStage (stageType st') (load σ' (definition st')))).
Proof.
  intros Hload Hcall. rewrite <- (observe_expected σ st d m Hload).
  unfold observe. by rewrite Hcall.
Qed.

(** The invariant of the builder, by induction on how the stage came about. *)
Lemma built_inv σ st :
  built σ st →
  ∃ d, load σ (definition st) = Some d ∧
       stageShape (stageType st) d ∧
       wellTagged d.
Proof.
  induction 1 as [σ0 | σ st m σ' st' _ (d & Hload & Hshape & Htags) Hcall
                 | σ st σ' _ (d & Hload & Hshape & Htags) Hcalls].
  - destruct (runWhile_load σ0) as (_ & Hty & Hload).
    eexists. split_and!; [done | by rewrite Hty | split; [constructor | by inversion 1]].
  - pose proof (invoke_stage_expected _ _ _ _ _ _ Hload Hcall) as Hexp.
    destruct (stageType st), m as [s | t cl | callback |]; simpl in Hexp; try done.
    + injection Hexp as <- <-. destruct Hshape as (Hinv & Hcb & _).
      exists (withSaga d s). split_and!; [done | by repeat split; eauto | done].
    + unfold addInvariant in Hexp.
      destruct (String.eqb t sagaRaceTag) eqn:Hres; [done|].
      destruct (List.existsb _ _) eqn:Hdup; [done|].
      injection Hexp as <- <-. destruct Hshape as (Hinv & Hcb & Hsaga).
      exists (withInvariant d t cl). split_and!; [done | |].
      * simpl. split_and!; [by destruct (def_invariants d) | done | done].
      * apply wellTagged_withInvariant; [done | by apply String.eqb_neq |].
        intros Hin%existsb_tag. by rewrite Hin in Hdup.
    + unfold addInvariant in Hexp.
      destruct (String.eqb t sagaRaceTag) eqn:Hres; [done|].
      destruct (List.existsb _ _) eqn:Hdup; [done|].
      injection Hexp as <- <-. destruct Hshape as (Hinv & Hcb & Hsaga).
      exists (withInvariant d t cl). split_and!; [done | |].
      * simpl. split_and!; [by destruct (def_invariants d) | done | done].
      * apply wellTagged_withInvariant; [done | by apply String.eqb_neq |].
        intros Hin%existsb_tag. by rewrite Hin in Hdup.
    + injection Hexp as <- <-. destruct Hshape as (Hinv & Hcb & Hsaga).
      exists (withCallback d callback). split_and!; [done | | done].
      simpl. split_and!; [done | by destruct (def_onViolationCallbacks d) | done].
    + injection Hexp as <- <-. destruct Hshape as (Hinv & Hcb & Hsaga).
      exists (withCallback d callback). split_and!; [done | | done].
      simpl. split_and!; [done | by destruct (def_onViolationCallbacks d) | done].
  - exists d. split_and!; [|done..].
    eapply load_weaken; [by apply calls_subseteq | done].
Qed.

(** X2. Every stage a caller can hold is bound to a definition object that
    is in the store, whose tags are unique and never ['@@Saga'], and whose
    contents are what its type says: nothing yet for the stage of
    [runWhile()]; a task and nothing else after [saga]; a task, at least one
    invariant and no callback after [invariant]; a task, at least one
    invariant and at least one callback after [onViolation].  The stage
    keeps that configuration whatever is called afterwards. *)
Theorem built_stage_is_well_formed σ st :
  built σ st →
  ∃ d, load σ (definition st) = Some d ∧
       stageShape (stageType st) d ∧
       wellTagged d ∧
       ∀ σ', calls σ σ' → load σ' (definition st) = Some d.
Proof.
  intros Hbuilt. destruct (built_inv σ st Hbuilt) as (d & Hload & Hshape & Htags).
  exists d. split_and!; [done..|].
  intros σ' Hlater. eapply load_weaken; [|done]. by apply calls_subseteq.
Qed.

(** X11. [run()] on a stage a caller holds allocates nothing and returns
    the call of [runInternal] bound to the stage's definition object.  The
    generator that call stands for is [runInternal] on the stage's
    configuration, and stays so whatever is built afterwards.  Its race
    definition has the caller's task, never the placeholder, under
    ['@@Saga'] and one branch more than there are invariants; and there are
    callbacks exactly when there are invariants. *)
Theorem run_of_built_stage σ st σ' (e : CallEffect) :
  built σ st →
  invoke σ st call_run = Some (σ', Return (AnEffect e)) →
  σ' = σ ∧ e = CallRunInternal (definition st) ∧
  ∃ d s,
    load σ (definition st) = Some d ∧
    (∀ σ'', calls σ σ'' →
       boundRunInternal σ'' (definition st) = Some (runInternal d)) ∧
    raceDefinitionOf d !! sagaRaceTag = Some (CallSaga (userSaga s)) ∧
    size (raceDefinitionOf d) = Datatypes.S (List.length (def_invariants d)) ∧
    (def_invariants d = [] ↔ def_onViolationCallbacks d = []).
Proof.
  intros Hbuilt Hcall.
  destruct (built_inv σ st Hbuilt) as (d & Hload & Hshape & Htags).
  unfold invoke in Hcall.
  assert (σ' = σ ∧ e = CallRunInternal (definition st) ∧
          (stageType st = RunWhileSagaMonad ∨ stageType st = RunWhileOnViolationMonad))
    as (-> & -> & Hty).
  { destruct (stageType st); try done;
      try (apply liftStage_Some in Hcall as (c0 & _ & Hc); by destruct c0);
      injection Hcall as <- <-; auto. }
  split_and!; [done..|].
  assert (∃ s, def_saga d = userSaga s) as [s Hsaga].
  { destruct Hty as [Hty | Hty]; rewrite Hty in Hshape; by destruct Hshape as (_ & _ & ?). }
  pose proof (raceDefinitionOf_task d (proj2 Htags)) as Htask.
  pose proof (raceDefinitionOf_size d Htags) as Hsize.
  exists d, s. split_and!.
  - done.
  - intros σ'' Hcalls. unfold boundRunInternal.
    by rewrite (load_weaken _ _ _ _ (calls_subseteq _ _ Hcalls) Hload).
  - by rewrite <- Hsaga.
  - done.
  - destruct Hty as [Hty | Hty]; rewrite Hty in Hshape;
      destruct Hshape as (Hinv & Hcb & _); by split.
Qed.

(** X12. What a caller observes of a method call on a stage it holds is
    decided by the type of the stage and the configuration it was built
    with, now and after any further calls: it is what the builder read as a
    function on configurations gives, that is the error of [addInvariant],
    or the stage type and the configuration with the task replaced, the
    invariant appended or the callback appended, or the generator
    [runInternal] on the configuration.  Where the store keeps the objects,
    and what else has been built, makes no difference. *)
Theorem method_call_observed_as_on_contents σ st :
  built σ st →
  ∃ d, load σ (definition st) = Some d ∧
       ∀ σ', calls σ σ' →
         ∀ m, observe σ' st m = expected (stageType st) d m.
Proof.
  intros Hbuilt. destruct (built_inv σ st Hbuilt) as (d & Hload & _).
  exists d. split; [done|]. intros σ' Hlater m.
  apply observe_expected. eapply load_weaken; [|done]. by apply calls_subseteq.
Qed.

(** *** Whole chains *)

Lemma fluent_app σ st (ms ms' : list Method) σ' (st' : Stage) :
  fluent σ st ms = Some (σ', Return (AStage st')) →
  fluent σ st (ms ++ ms') = fluent σ' st' ms'.
Proof.
  revert σ st. induction ms as [|m ms IH]; intros σ st; simpl.
  - by intros [= <- <-].
  - destruct (invoke σ st m) as [[σ1 [[st1|e1]|e1]]|]; try done.
    + apply IH.
    + by destruct ms.
Qed.

Lemma invariant_eta (i : Invariant) : {| tag := tag i; clause := clause i |} = i.
Proof. by destruct i. Qed.

(** A run of [invariant] calls with new tags. *)
Lemma fluent_invariants σ st d (invariants : list Invariant) :
  load σ (definition st) = Some d →
  stageType st = RunWhileSagaMonad ∨ stageType st = RunWhileInvariantMonad →
  NoDup (tagsOf d ++ (tag <$> invariants)) →
  sagaRaceTag ∉ tag <$> invariants →
  ∃ σ' st',
    fluent σ st ((λ i, call_invariant (tag i) (clause i)) <$> invariants) =
      Some (σ', Return (AStage st')) ∧
    σ ⊆ σ' ∧
    (built σ st → built σ' st') ∧
    stageType st' =
      match invariants with [] => stageType st | _ => RunWhileInvariantMonad end ∧
    load σ' (definition st') =
      Some {| def_invariants := def_invariants d ++ invariants;
              def_onViolationCallbacks := def_onViolationCallbacks d;
              def_saga := def_saga d |}.
Proof.
  revert σ st d. induction invariants as [|i invariants IH]; intros σ st d Hload Hty Hnodup Hres.
  - exists σ, st. simpl. rewrite app_nil_r. split_and!; [done.. | by destruct d].
  - rewrite fmap_cons in Hnodup, Hres. apply not_elem_of_cons in Hres as [Hne Hres].
    assert (tag i ∉ tagsOf d) as Hnew.
    { apply NoDup_app in Hnodup as (_ & Hdisj & _). intros Hin.
      apply (Hdisj _ Hin), list_elem_of_here. }
    destruct (invariant_spec σ (definition st) d (tag i) (clause i) Hload)
      as (σ1 & new & Hcall & Hsub & _ & Hload1); [done..|].
    set (st1 := {| stageType := RunWhileInvariantMonad; definition := new |}).
    assert (invoke σ st (call_invariant (tag i) (clause i)) =
              Some (σ1, Return (AStage st1))) as Hinvoke.
    { unfold invoke. destruct Hty as [-> | ->]; by rewrite Hcall. }
    destruct (IH σ1 st1 (withInvariant d (tag i) (clause i)) Hload1)
      as (σ' & st' & Hrest & Hsub' & Hbuilt & Hty' & Hload'); [by right | | done |].
    { rewrite tagsOf_withInvariant, <- app_assoc. done. }
    exists σ', st'. split_and!.
    + simpl. by rewrite Hinvoke.
    + by etransitivity.
    + intros Hb. apply Hbuilt. by eapply built_invoke.
    + rewrite Hty'. by destruct invariants.
    + rewrite Hload'. simpl. by rewrite invariant_eta, <- app_assoc.
Qed.

(** A run of [onViolation] calls. *)
Lemma fluent_callbacks σ st d (callbacks : list Callback) :
  load σ (definition st) = Some d →
  callbacks = [] ∨
    stageType st = RunWhileInvariantMonad ∨ stageType st = RunWhileOnViolationMonad →
  ∃ σ' st',
    fluent σ st (call_onViolation <$> callbacks) = Some (σ', Return (AStage st')) ∧
    σ ⊆ σ' ∧
    (built σ st → built σ' st') ∧
    stageType st' =
      match callbacks with [] => stageType st | _ => RunWhileOnViolationMonad end ∧
    load σ' (definition st') =
      Some {| def_invariants := def_invariants d;
              def_onViolationCallbacks := def_onViolationCallbacks d ++ callbacks;
              def_saga := def_saga d |}.
Proof.
  revert σ st d. induction callbacks as [|callback callbacks IH]; intros σ st d Hload Hty.
  - exists σ, st. simpl. rewrite app_nil_r. split_and!; [done.. | by destruct d].
  - destruct Hty as [? | Hty]; [done|].
    destruct (onViolation_spec σ (definition st) d callback Hload)
      as (σ1 & new & Hcall & Hsub & _ & Hload1).
    set (st1 := {| stageType := RunWhileOnViolationMonad; definition := new |}).
    assert (invoke σ st (call_onViolation callback) = Some (σ1, Return (AStage st1)))
      as Hinvoke.
    { unfold invoke. destruct Hty as [-> | ->]; by rewrite Hcall. }
    destruct (IH σ1 st1 (withCallback d callback) Hload1)
      as (σ' & st' & Hrest & Hsub' & Hbuilt & Hty' & Hload'); [by right; right|].
    exists σ', st'. split_and!.
    + simpl. by rewrite Hinvoke.
    + by etransitivity.
    + intros Hb. apply Hbuilt. by eapply built_invoke.
    + rewrite Hty'. by destruct callbacks.
    + rewrite Hload'. simpl. by rewrite <- app_assoc.
Qed.

(** [runWhile().saga(s)] *)
Lemma fluent_saga σ (s : Saga) :
  ∃ σ1 st1,
    fluentFrom σ [call_saga s] = Some (σ1, Return (AStage st1)) ∧
    σ ⊆ σ1 ∧ built σ1 st1 ∧
    stageType st1 = RunWhileSagaMonad ∧
    load σ1 (definition st1) =
      Some {| def_invariants := []; def_onViolationCallbacks := [];
              def_saga := userSaga s |}.
Proof.
  unfold fluentFrom.
  pose proof (built_runWhile σ) as Hbuilt0.
  destruct (runWhile_load σ) as (Hsub0 & Hty & Hload).
  destruct (runWhile σ) as [σ0 st0]. simpl in *.
  destruct (saga_spec σ0 (definition st0) _ s Hload)
    as (σ1 & new & Hcall & Hsub & _ & Hload1).
  set (st1 := {| stageType := RunWhileSagaMonad; definition := new |}).
  assert (invoke σ0 st0 (call_saga s) = Some (σ1, Return (AStage st1))) as Hinvoke.
  { unfold invoke. by rewrite Hty, Hcall. }
  exists σ1, st1. rewrite Hinvoke. split_and!; try done.
  - by etransitivity.
  - by eapply built_invoke.
Qed.

(** X9. A chain written with unique tags, none of them ['@@Saga'], and
    with callbacks only after at least one invariant, goes through: it
    changes no cell that was there, and the stage it returns is bound to
    exactly the configuration written, invariants and callbacks in the order
    of the calls.  When moreover there are callbacks as soon as there are
    invariants, [.run()] at the end returns the effect whose generator is
    [runInternal] on that configuration. *)
Theorem written_chain_builds_written_configuration σ (s : Saga)
    (invariants : list Invariant) (callbacks : list Callback) :
  NoDup (tag <$> invariants) →
  sagaRaceTag ∉ tag <$> invariants →
  (invariants = [] → callbacks = []) →
  let written := {| def_invariants := invariants;
                    def_onViolationCallbacks := callbacks;
                    def_saga := userSaga s |} in
  (∃ σ' st,
     fluentFrom σ (chainOf s invariants callbacks) = Some (σ', Return (AStage st)) ∧
     preserved σ σ' ∧ built σ' st ∧
     load σ' (definition st) = Some written) ∧
  ((callbacks = [] → invariants = []) →
   ∃ σ' this,
     fluentFrom σ (chainOf s invariants callbacks ++ [call_run]) =
       Some (σ', Return (AnEffect (CallRunInternal this))) ∧
     boundRunInternal σ' this = Some (runInternal written)).
Proof.
  intros Hnodup Hres Horder written.
  destruct (fluent_saga σ s) as (σ1 & st1 & Hsaga & Hsub1 & Hbuilt1 & Hty1 & Hload1).
  destruct (fluent_invariants σ1 st1 _ invariants Hload1)
    as (σ2 & st2 & Hinvs & Hsub2 & Hbuilt2 & Hty2 & Hload2); [by left | done..|].
  simpl in Hload2. rewrite Hty1 in Hty2.
  destruct (fluent_callbacks σ2 st2 _ callbacks Hload2)
    as (σ3 & st3 & Hcbs & Hsub3 & Hbuilt3 & Hty3 & Hload3).
  { destruct invariants; [left; by apply Horder | by right; left]. }
  simpl in Hload3. rewrite Hty2 in Hty3.
  assert (fluentFrom σ (chainOf s invariants callbacks) =
            Some (σ3, Return (AStage st3))) as Hchain.
  { unfold fluentFrom, chainOf in *. destruct (runWhile σ) as [σ0 st0].
    change (call_saga s :: ?l)%list with ([call_saga s] ++ l)%list.
    rewrite (fluent_app _ _ _ _ _ _ Hsaga).
    by rewrite (fluent_app _ _ _ _ _ _ Hinvs). }
  split.
  - exists σ3, st3. split_and!; try done.
    + apply subseteq_preserved. by do 2 (etransitivity; [|done]).
    + auto.
  - intros Hrunnable. exists σ3, (definition st3).
    unfold fluentFrom in *. destruct (runWhile σ) as [σ0 st0].
    rewrite (fluent_app _ _ _ _ _ _ Hchain). simpl.
    unfold invoke, boundRunInternal. rewrite Hload3.
    destruct callbacks as [|callback callbacks].
    + rewrite (Hrunnable eq_refl) in Hty3. by rewrite Hty3.
    + by rewrite Hty3.
Qed.

(** X10. A chain of [invariant] calls throws at the first tag that is
    ['@@Saga'] or repeats an earlier tag of the chain, with the reserved
    message in the first case and the duplicate message otherwise; nothing
    written after that call is run, and no cell that was in the store has
    changed. *)
Theorem chain_throws_at_first_bad_tag σ (s : Saga) (pre post : list Invariant)
    (i : Invariant) (callbacks : list Callback) :
  NoDup (tag <$> pre) →
  sagaRaceTag ∉ tag <$> pre →
  tag i = sagaRaceTag ∨ tag i ∈ tag <$> pre →
  ∃ σ',
    fluentFrom σ (chainOf s (pre ++ i :: post) callbacks) =
      Some (σ', Throws {| message :=
                  if decide (tag i = sagaRaceTag) then reservedMessage (tag i)
                  else duplicateMessage (tag i) |}) ∧
    preserved σ σ'.
Proof.
  intros Hnodup Hres Hbad.
  destruct (fluent_saga σ s) as (σ1 & st1 & Hsaga & Hsub1 & Hbuilt1 & Hty1 & Hload1).
  destruct (fluent_invariants σ1 st1 _ pre Hload1)
    as (σ2 & st2 & Hinvs & Hsub2 & _ & Hty2 & Hload2); [by left | done..|].
  simpl in Hload2. rewrite Hty1 in Hty2.
  exists σ2. split; [|apply subseteq_preserved; by etransitivity].
  unfold fluentFrom, chainOf in *. destruct (runWhile σ) as [σ0 st0].
  change (call_saga s :: ?l)%list with ([call_saga s] ++ l)%list.
  rewrite (fluent_app _ _ _ _ _ _ Hsaga).
  rewrite fmap_app, <- app_assoc, (fluent_app _ _ _ _ _ _ Hinvs).
  rewrite fmap_cons. simpl.
  assert (invoke σ2 st2 (call_invariant (tag i) (clause i)) =
            liftStage (invariant σ2 (definition st2) (tag i) (clause i))) as ->.
  { unfold invoke. rewrite Hty2. by destruct pre. }
  destruct (invariant_cases σ2 (definition st2) _ (tag i) (clause i) Hload2)
    as [[Heq ->] | [(Hne & Hin & ->) | (Hne & Hnotin & _)]]; simpl.
  - by rewrite decide_True.
  - by rewrite decide_False.
  - by destruct Hbad.
Qed.

End EveryStage.

(** * The further properties on examples *)

Section MoreExamples.

Import Example Scenario.

Local Abbreviation own raceKey := (objectLiteral {[ raceKey ]}).

Lemma banded_wellTagged : wellTagged banded.
Proof. split; apply (bool_decide_unpack _); by vm_compute. Qed.

(** The stage of [runWhile().saga(T).invariant("a", ..)]. *)
Lemma built_stage_is_well_formed_witness :
  let σ0 := started.1 in
  let st0 := started.2 in
  let σ1 := <[4%positive := DefinitionObject 1 2 (userSaga "T")]> σ0 in
  let st1 := {| stageType := RunWhileSagaMonad; definition := 4 |} in
  let σ2 := <[6%positive := DefinitionObject 5 2 (userSaga "T")]>
              (<[5%positive := InvariantArray [{| tag := "a"; clause := λ _ : Z, Return true |}]]> σ1) in
  let st2 := {| stageType := RunWhileInvariantMonad; definition := 6 |} in
  built σ2 st2 ∧
  ∃ d, load σ2 (definition st2) = Some d ∧
       stageShape (stageType st2) d ∧
       wellTagged d ∧
       ∀ σ', calls σ2 σ' → load σ' (definition st2) = Some d.
Proof.
  intros σ0 st0 σ1 st1 σ2 st2.
  assert (built σ2 st2) as Hbuilt.
  { apply (built_invoke σ1 st1 (call_invariant "a" (λ _, Return true))).
    - apply (built_invoke σ0 st0 (call_saga "T")).
      + apply (built_runWhile (Saga := string) (Callback := string) (S := Z) ∅).
      + vm_compute. reflexivity.
    - vm_compute. reflexivity. }
  split; [exact Hbuilt|].
  apply (built_stage_is_well_formed σ2 st2 Hbuilt).
Defined.

(** [run()] right after [runWhile().saga(T)]. *)
Lemma run_of_built_stage_witness :
  let σ0 := started.1 in
  let st0 := started.2 in
  let σ1 := <[4%positive := DefinitionObject 1 2 (userSaga "T")]> σ0 in
  let st1 := {| stageType := RunWhileSagaMonad; definition := 4 |} in
  built σ1 st1 ∧
  invoke σ1 st1 call_run = Some (σ1, Return (AnEffect (CallRunInternal 4))) ∧
  ∃ d,
    load σ1 4%positive = Some d ∧
    (∀ σ'', calls σ1 σ'' → boundRunInternal σ'' 4%positive = Some (runInternal d)) ∧
    size (raceDefinitionOf d) = Datatypes.S (List.length (def_invariants d)).
Proof.
  intros σ0 st0 σ1 st1.
  assert (built σ1 st1) as Hbuilt.
  { apply (built_invoke σ0 st0 (call_saga "T")).
    - apply (built_runWhile (Saga := string) (Callback := string) (S := Z) ∅).
    - vm_compute. reflexivity. }
  assert (invoke σ1 st1 call_run = Some (σ1, Return (AnEffect (CallRunInternal 4))))
    as Hcall by reflexivity.
  split_and!; [exact Hbuilt | exact Hcall |].
  destruct (run_of_built_stage σ1 st1 σ1 (CallRunInternal 4) Hbuilt Hcall)
    as (_ & _ & d & s & Hload & Hlater & _ & Hsize & _).
  by exists d.
Defined.

(** [runWhile().saga(T)], then [invariant('@@Saga', ..)] on its stage: the
    reserved error, from the contents alone. *)
Lemma method_call_observed_as_on_contents_witness :
  let σ0 := started.1 in
  let st0 := started.2 in
  let σ1 := <[4%positive := DefinitionObject 1 2 (userSaga "T")]> σ0 in
  let st1 := {| stageType := RunWhileSagaMonad; definition := 4 |} in
  built σ1 st1 ∧
  observe σ1 st1 (call_invariant sagaRaceTag (λ _ : Z, Return true)) =
    Some (Throws {| message := reservedMessage sagaRaceTag |}).
Proof.
  intros σ0 st0 σ1 st1.
  assert (built σ1 st1) as Hbuilt.
  { apply (built_invoke σ0 st0 (call_saga "T")).
    - apply (built_runWhile (Saga := string) (Callback := string) (S := Z) ∅).
    - vm_compute. reflexivity. }
  split; [exact Hbuilt|].
  destruct (method_call_observed_as_on_contents σ1 st1 Hbuilt) as (d & Hload & Hobs).
  rewrite (Hobs σ1 (calls_none σ1)). reflexivity.
Defined.

(** [banded]: four branches. *)
Lemma raceDefinition_keeps_every_branch_witness :
  wellTagged banded ∧
  raceDefinitionOf banded !! sagaRaceTag = Some (CallSaga (userSaga "T")) ∧
  size (raceDefinitionOf banded) = 4.
Proof.
  split; [exact banded_wellTagged|].
  destruct (raceDefinition_keeps_every_branch banded banded_wellTagged)
    as (Htask & _ & _ & Hsize).
  split; [exact Htask | exact Hsize].
Defined.

(** [banded] at 12: ["B"] and ["C"] are broken, ["A"] is not. *)
Lemma violations_name_each_broken_invariant_once_witness :
  NoDup (tagsOf banded) ∧
  violationsOf banded 12%Z = Return ["B"; "C"] ∧
  NoDup ["B"; "C"] ∧
  ∀ i, i ∈ def_invariants banded →
    (tag i ∈ ["B"; "C"] ↔ clause i 12%Z = Return false).
Proof.
  assert (NoDup (tagsOf banded)) as Hnodup by apply banded_wellTagged.
  assert (violationsOf banded 12%Z = Return ["B"; "C"]) as Hcomputed by reflexivity.
  split_and!; [exact Hnodup | exact Hcomputed | |];
    apply (violations_name_each_broken_invariant_once banded 12%Z Hnodup);
    exact Hcomputed.
Defined.


(** [banded], the watcher of ["C"] wins. *)
Lemma state_read_iff_other_key_completed_witness :
  let mw := scripted (own "C") 12%Z in
  (sagaRaceTag ∉ tagsOf banded) ∧
  mw _ (Race (raceDefinitionOf banded)) 0 ∅ = (1, ∅, Next (own "C")) ∧
  ownKeys (own "C") ⊆ dom (raceDefinitionOf banded) ∧
  (∀ t, t ∈ tagsOf banded → t ∉ protoKeys (own "C")) ∧
  ((∃ key, key ∈ ownKeys (own "C") ∧ key ≠ sagaRaceTag) ↔
   (∃ answer, EvSelect answer ∈ (drive mw (runInternal banded) 0 ∅).1.1)).
Proof.
  intros mw.
  assert (sagaRaceTag ∉ tagsOf banded) as Hreserved by apply banded_wellTagged.
  assert (ownKeys (own "C") ⊆ dom (raceDefinitionOf banded)) as Hkeys.
  { apply (bool_decide_unpack _). vm_compute. exact I. }
  assert (∀ t, t ∈ tagsOf banded → t ∉ protoKeys (own "C")) as Hproto.
  { intros t Ht.
    repeat (apply elem_of_cons in Ht as [->|Ht]);
      [apply (bool_decide_unpack _); vm_compute; exact I..|].
    by inversion Ht. }
  split_and!; [exact Hreserved | reflexivity | exact Hkeys | exact Hproto |].
  apply (state_read_iff_other_key_completed mw banded 0 1 ∅ ∅ (own "C")
           Hreserved eq_refl Hkeys Hproto).
Defined.

(** [brittle], the watcher of ["checked"] wins, the state read is -1: the
    clause of ["small"] returns, the clause of ["checked"] throws. *)
Lemma throwing_clause_ends_the_run_witness :
  let e := {| message := "negative" |} in
  let mw := scripted (own "checked") (-1)%Z in
  let small := {| tag := "small"; clause := λ count, Return (count <? 10)%Z |} in
  let checked :=
    {| tag := "checked";
       clause := λ count,
         if (count <? 0)%Z then Throws {| message := "negative" |} else Return true |} in
  mw _ (Race (raceDefinitionOf brittle)) 0 ∅ = (1, ∅, Next (own "checked")) ∧
  checked ∈ def_invariants brittle ∧
  hasProperty (tag checked) (own "checked") = true ∧
  mw _ Select 1 ∅ = (2, ∅, Next (-1)%Z) ∧
  def_invariants brittle = ([small] ++ checked :: [])%list ∧
  Forall (λ k : @Invariant Z, ∃ holds, clause k (-1)%Z = Return holds) [small] ∧
  clause checked (-1)%Z = Throws e ∧
  violationsOf brittle (-1)%Z = Throws e ∧
  drive mw (runInternal brittle) 0 ∅ =
    ([EvRace (raceDefinitionOf brittle) (Next (own "checked")); EvSelect (Next (-1)%Z)],
     Failed e, (2, ∅)).
Proof.
  intros e mw small checked.
  assert (checked ∈ def_invariants brittle) as Hregistered.
  { apply list_elem_of_further, list_elem_of_here. }
  assert (hasProperty (tag checked) (own "checked") = true) as Hwon.
  { vm_compute. reflexivity. }
  assert (Forall (λ k : @Invariant Z, ∃ holds, clause k (-1)%Z = Return holds) [small])
    as Hbefore.
  { repeat constructor. eexists. reflexivity. }
  split_and!;
    [reflexivity | exact Hregistered | exact Hwon | reflexivity | reflexivity
    | exact Hbefore | reflexivity | |];
    apply (throwing_clause_ends_the_run mw brittle 0 1 2 ∅ ∅ ∅ (own "checked") (-1)%Z
             checked [small] [] checked e);
    first [reflexivity | exact Hregistered | exact Hwon | exact Hbefore].
Defined.

(** The chain that writes [banded] down. *)
Lemma written_chain_builds_written_configuration_witness :
  NoDup (tag <$> def_invariants banded) ∧
  (sagaRaceTag ∉ tag <$> def_invariants banded) ∧
  (def_invariants banded = [] → ["H1"; "H2"] = []) ∧
  (∃ σ' st,
     fluentFrom ∅ (chainOf "T" (def_invariants banded) ["H1"; "H2"]) =
       Some (σ', Return (AStage st)) ∧
     load σ' (definition st) = Some banded) ∧
  (∃ σ' this,
     fluentFrom ∅ (chainOf "T" (def_invariants banded) ["H1"; "H2"] ++ [call_run]) =
       Some (σ', Return (AnEffect (CallRunInternal this))) ∧
     boundRunInternal σ' this = Some (runInternal banded)).
Proof.
  destruct banded_wellTagged as [Hnodup Hreserved].
  assert (def_invariants banded = [] → ["H1"; "H2"] = []) as Horder by discriminate.
  destruct (written_chain_builds_written_configuration ∅ "T" (def_invariants banded)
              ["H1"; "H2"] Hnodup Hreserved Horder) as [Hstage Hrun].
  split_and!; [exact Hnodup | exact Hreserved | exact Horder | |].
  - destruct Hstage as (σ' & st & Hchain & _ & _ & Hload). by exists σ', st.
  - apply Hrun. discriminate.
Defined.

(** [.invariant("a", ..).invariant("a", ..)] *)
Lemma chain_throws_at_first_bad_tag_witness :
  let a := {| tag := "a"; clause := λ _ : Z, Return true |} in
  NoDup (tag <$> [a]) ∧
  (sagaRaceTag ∉ tag <$> [a]) ∧
  (tag a = sagaRaceTag ∨ tag a ∈ tag <$> [a]) ∧
  ∃ σ',
    fluentFrom (Saga := string) (Callback := string) ∅ (chainOf "T" ([a] ++ a :: []) ["H"]) =
      Some (σ', Throws {| message := "a is a" |}).
Proof.
  intros a.
  assert (NoDup (tag <$> [a])) as Hnodup.
  { apply (bool_decide_unpack _). vm_compute. exact I. }
  assert (sagaRaceTag ∉ tag <$> [a]) as Hreserved.
  { apply (bool_decide_unpack _). vm_compute. exact I. }
  assert (tag a = sagaRaceTag ∨ tag a ∈ tag <$> [a]) as Hbad.
  { right. apply list_elem_of_here. }
  split_and!; [exact Hnodup | exact Hreserved | exact Hbad |].
  destruct (chain_throws_at_first_bad_tag (Callback := string) ∅ "T" [a] [] a ["H"]
              Hnodup Hreserved Hbad) as (σ' & Hchain & _).
  exists σ'. exact Hchain.
Defined.

End MoreExamples.

